(** * RamFuzz runtime: the generate/replay engine and the visibility predicate

    A shallow embedding of [runtime/ramfuzz-rt.hpp] (class [gen], the built-in
    [harness] specialisations) and of [globally_visible], [parameters] and
    [NameGetter::get] from [lib/Util.cpp].

    Conventions of the embedding:
    - the data model is LP64 little-endian (x86-64 Linux, which the header's
      use of libunwind presupposes): [char] is signed, [long] and [size_t]
      are 64 bits wide;
    - a value of an integral type is the integer it denotes; a value of a
      floating type is its IEEE-754 bit pattern;
    - [assert] is the macro of <cassert> with NDEBUG undefined: a failed
      assertion aborts the run;
    - memory is unbounded: [new] and the containers' constructors never
      fail for want of it;
    - a variable that is declared without an initializer holds some value
      of its type, the same wherever the engine reads it: the program is
      run as the implementation at hand runs it. *)

From Stdlib Require Import ZArith List Lia Bool.
From coqutil Require Import Byte Word.LittleEndianList.
From stdpp Require Import base option list gmap strings pretty.

Local Open Scope Z_scope.

(** ** Numeric types *)

(** The arithmetic types [between] is instantiated at. *)
Inductive numty : Set :=
| T_bool | T_char | T_schar | T_uchar
| T_short | T_ushort | T_int | T_unsigned
| T_long | T_ulong | T_llong | T_ullong
| T_float | T_double.

(** [size_t] is [unsigned long] on LP64. *)
Definition T_size_t : numty := T_ulong.

(** [sizeof(T)], in bytes. *)
Definition sizeof (T : numty) : nat :=
  match T with
  | T_bool | T_char | T_schar | T_uchar => 1
  | T_short | T_ushort => 2
  | T_int | T_unsigned | T_float => 4
  | T_long | T_ulong | T_llong | T_ullong | T_double => 8
  end%nat.

Definition bitsof (T : numty) : Z := 8 * Z.of_nat (sizeof T).

Definition is_float (T : numty) : bool :=
  match T with T_float | T_double => true | _ => false end.

(** Integral types stored in two's complement. *)
Definition is_signed (T : numty) : bool :=
  match T with
  | T_char | T_schar | T_short | T_int | T_long | T_llong => true
  | _ => false
  end.

(** Bit pattern of the largest finite value's exponent field boundary:
    every pattern whose magnitude exceeds [inf_bits] is a NaN. *)
Definition inf_bits (T : numty) : Z :=
  match T with
  | T_float => 0x7F800000
  | _ => 0x7FF0000000000000
  end.

(** [std::numeric_limits<T>::min()]: the least value of an integral type,
    the least positive normal value of a floating type. *)
Definition numeric_min (T : numty) : Z :=
  match T with
  | T_float => 0x00800000
  | T_double => 0x0010000000000000
  | T_bool => 0
  | _ => if is_signed T then - 2 ^ (bitsof T - 1) else 0
  end.

(** [std::numeric_limits<T>::max()]. *)
Definition numeric_max (T : numty) : Z :=
  match T with
  | T_float => 0x7F7FFFFF
  | T_double => 0x7FEFFFFFFFFFFFFF
  | T_bool => 1
  | _ => if is_signed T then 2 ^ (bitsof T - 1) - 1 else 2 ^ bitsof T - 1
  end.

(** Floating-point order on bit patterns.  [fkey] maps a pattern to a
    sign-magnitude integer: on patterns that are not NaN the IEEE order is
    the order of the keys (both zeros have key 0). *)
Definition fkey (T : numty) (b : Z) : Z :=
  if b <? 2 ^ (bitsof T - 1) then b else 2 ^ (bitsof T - 1) - b.

Definition funkey (T : numty) (k : Z) : Z :=
  if 0 <=? k then k else 2 ^ (bitsof T - 1) - k.

Definition fnan (T : numty) (b : Z) : bool :=
  inf_bits T <? b mod 2 ^ (bitsof T - 1).

(** [a <= b] at type [T], as C++ evaluates it. *)
Definition num_le (T : numty) (a b : Z) : bool :=
  if is_float T
  then negb (fnan T a) && negb (fnan T b) && (fkey T a <=? fkey T b)
  else a <=? b.

(** [a > b] at type [T]. *)
Definition num_gt (T : numty) (a b : Z) : bool :=
  if is_float T
  then negb (fnan T a) && negb (fnan T b) && (fkey T b <? fkey T a)
  else b <? a.

(** The values an object of type [T] can hold. *)
Definition representable (T : numty) (v : Z) : Prop :=
  if is_float T then 0 <= v < 2 ^ bitsof T
  else if is_signed T then - 2 ^ (bitsof T - 1) <= v < 2 ^ (bitsof T - 1)
  else 0 <= v < 2 ^ bitsof T.

(** Object representation: [sizeof(T)] bytes, least significant first. *)
Definition encode (T : numty) (v : Z) : list byte :=
  le_split (sizeof T) v.

(** The value a [T] holds when its bytes are [bs]. *)
Definition decode (T : numty) (bs : list byte) : Z :=
  let u := le_combine bs in
  if is_signed T && (2 ^ (bitsof T - 1) <=? u) then u - 2 ^ bitsof T else u.

(** Some double constants of the header. *)
Definition dbl_0 : Z := 0.
Definition dbl_half : Z := 0x3FE0000000000000.
Definition dbl_1 : Z := 0x3FF0000000000000.

(** Arithmetic on [size_t] and [unsigned] wraps around. *)
Definition wrap (T : numty) (v : Z) : Z := v mod 2 ^ bitsof T.

(** ** Types the engine synthesizes *)

(** The argument [T] of [make<T>]: an arithmetic type, a class or union (by
    name), a pointer, [void] or a function type.  cv-qualifiers are
    dropped, as [typeid] and [make] drop them; enumerations, which share
    the arithmetic overload, are left out. *)
Inductive ty : Set :=
| TNum (T : numty)
| TClass (c : string)
| TPtr (t : ty)
| TVoid
| TFunc.

Global Instance numty_eq_dec : EqDecision numty.
Proof. solve_decision. Defined.

Global Instance ty_eq_dec : EqDecision ty.
Proof. solve_decision. Defined.

Definition numty_code (T : numty) : nat :=
  match T with
  | T_bool => 0 | T_char => 1 | T_schar => 2 | T_uchar => 3
  | T_short => 4 | T_ushort => 5 | T_int => 6 | T_unsigned => 7
  | T_long => 8 | T_ulong => 9 | T_llong => 10 | T_ullong => 11
  | T_float => 12 | T_double => 13
  end%nat.

Definition numty_of_code (n : nat) : option numty :=
  match n with
  | 0 => Some T_bool | 1 => Some T_char | 2 => Some T_schar | 3 => Some T_uchar
  | 4 => Some T_short | 5 => Some T_ushort | 6 => Some T_int
  | 7 => Some T_unsigned | 8 => Some T_long | 9 => Some T_ulong
  | 10 => Some T_llong | 11 => Some T_ullong | 12 => Some T_float
  | 13 => Some T_double | _ => None
  end%nat.

Global Program Instance numty_countable : Countable numty :=
  inj_countable numty_code numty_of_code _.
Next Obligation. by intros []. Qed.

(** [n] levels of pointer over [t]. *)
Fixpoint ptr_to (n : nat) (t : ty) : ty :=
  match n with O => t | S k => TPtr (ptr_to k t) end.

(** A type is so many pointer levels over a type that is no pointer. *)
Fixpoint ty_levels (t : ty) : nat :=
  match t with TPtr t => S (ty_levels t) | _ => O end.

Fixpoint ty_base (t : ty) : numty + string + bool :=
  match t with
  | TNum T => inl (inl T)
  | TClass c => inl (inr c)
  | TPtr t => ty_base t
  | TVoid => inr false
  | TFunc => inr true
  end.

Definition base_ty (b : numty + string + bool) : ty :=
  match b with
  | inl (inl T) => TNum T
  | inl (inr c) => TClass c
  | inr false => TVoid
  | inr true => TFunc
  end.

Global Program Instance ty_countable : Countable ty :=
  inj_countable' (fun t => (ty_levels t, ty_base t))
                 (fun x => ptr_to (fst x) (base_ty (snd x))) _.
Next Obligation. intros t. induction t; simpl in *; try done. by f_equal. Qed.

(** [is_char_ptr<T>::value]. *)
Definition is_char_ptr (t : ty) : bool :=
  match t with TPtr (TNum T_char) => true | _ => false end.

(** ** The free store *)

(** A pointer value: null, or the address of an object of the free store. *)
Definition pointer := option nat.

(** What [new] creates.  A class instance is abstracted as the data its
    constructor received and the roulette methods invoked on it so far. *)
Inductive object : Type :=
| ONum (T : numty) (v : Z)                 (* new T(v) *)
| OPtr (t : ty) (p : pointer)              (* a [t*] slot holding p *)
| OArr (cells : list (option Z))           (* new char[n]; None: not yet written *)
| OClass (c : string) (data : list Z) (calls : list Z).

(** The dynamic class of a class instance. *)
Definition dyn_class (o : object) : option string :=
  match o with OClass c _ _ => Some c | _ => None end.

(** ** Streams and the engine's members *)

Inductive mode : Set := generate | replay.

(** [std::ranlux24], abstracted as the sequence of raw numbers it delivers
    and the count delivered so far. *)
Record ranlux24 := { draws : nat -> Z; drawn : nat }.

Definition next_draw (r : ranlux24) : Z * ranlux24 :=
  (draws r (drawn r), {| draws := draws r; drawn := S (drawn r) |}).

(** [std::ifstream]: the characters not yet extracted, and whether the
    stream has failed (failbit or eofbit set). *)
Record ifstream := { unread : list byte; failed : bool }.

(** [ilog.get()]: the next character, or EOF (None), which fails the stream. *)
Definition stream_get (s : ifstream) : option byte * ifstream :=
  if failed s then (None, s)
  else match unread s with
       | [] => (None, {| unread := []; failed := true |})
       | b :: rest => (Some b, {| unread := rest; failed := false |})
       end.

(** [ilog.read(p, n)]: the characters stored at [p]; fewer than [n] are
    available at the end of the stream, which then fails. *)
Definition stream_read (n : nat) (s : ifstream) : list byte * ifstream :=
  if failed s then ([], s)
  else (take n (unread s),
        {| unread := drop n (unread s);
           failed := bool_decide (length (unread s) < n)%nat |}).

(** Class [gen] (members [runmode], [rgen], [olog], [ilog], [storage];
    [base_pc] is never read in the header), together with the free store
    its pointers refer to.  [olog] is the content written to the output
    file: every write is flushed at once. *)
Record gen := {
  runmode : mode;
  rgen : ranlux24;
  olog : list byte;
  ilog : ifstream;
  storage : gmap ty (list nat);
  heap : list object
}.

Definition set_rgen (r : ranlux24) (g : gen) : gen :=
  {| runmode := runmode g; rgen := r; olog := olog g; ilog := ilog g;
     storage := storage g; heap := heap g |}.
Definition set_olog (l : list byte) (g : gen) : gen :=
  {| runmode := runmode g; rgen := rgen g; olog := l; ilog := ilog g;
     storage := storage g; heap := heap g |}.
Definition set_ilog (s : ifstream) (g : gen) : gen :=
  {| runmode := runmode g; rgen := rgen g; olog := olog g; ilog := s;
     storage := storage g; heap := heap g |}.
Definition set_storage (m : gmap ty (list nat)) (g : gen) : gen :=
  {| runmode := runmode g; rgen := rgen g; olog := olog g; ilog := ilog g;
     storage := m; heap := heap g |}.
Definition set_heap (h : list object) (g : gen) : gen :=
  {| runmode := runmode g; rgen := rgen g; olog := olog g; ilog := ilog g;
     storage := storage g; heap := h |}.

(** [gen(ologname)]: a fresh engine in generate mode. *)
Definition gen_generate (r : ranlux24) : gen :=
  {| runmode := generate; rgen := r; olog := [];
     ilog := {| unread := []; failed := true |};
     storage := ∅; heap := [] |}.

(** [gen(ilogname, ologname)]: a fresh engine replaying the file content
    [input]. *)
Definition gen_replay (r : ranlux24) (input : list byte) : gen :=
  {| runmode := replay; rgen := r; olog := [];
     ilog := {| unread := input; failed := false |};
     storage := ∅; heap := [] |}.

(** T's pool: [storage[typeid(T)]], empty when absent. *)
Definition pool (g : gen) (t : ty) : list nat := default [] (storage g !! t).

(** ** Runs: state and failure *)

Inductive failure : Set :=
| assertion_failed      (* assert: the run aborts *)
| undefined_behaviour   (* out-of-bounds access, null or dangling pointer *)
| uncaught_exception    (* std::bad_array_new_length *)
| out_of_fuel.          (* the recursion budget of the model is used up *)

Inductive outcome (A : Type) : Type :=
| Ok (a : A) (g : gen)
| Stop (f : failure).
Arguments Ok {A} a g.
Arguments Stop {A} f.

Definition M (A : Type) : Type := gen -> outcome A.

Definition ret {A} (a : A) : M A := fun g => Ok a g.
Definition stop {A} (f : failure) : M A := fun _ => Stop f.
Definition bind {A B} (m : M A) (k : A -> M B) : M B :=
  fun g => match m g with Ok a g' => k a g' | Stop f => Stop f end.

Notation "'let*' x ':=' m 'in' k" := (bind m (fun x => k))
  (at level 10, x name, m at level 100, k at level 200).

(** ** Harness classes and the program under test *)

(** Code of a harness class.  A harness holds a reference to the engine and
    reaches it through its public members only, [between] and [make]
    ([storage] and [store] are private to [gen], which has no friend); it
    reads the objects [make] hands out. *)
Inductive prog (A : Type) : Type :=
| Ret (a : A)
| Between (T : numty) (lo hi : Z) (valueid : Z) (k : Z -> prog A)
| Make (t : ty) (valueid : Z) (allow_subclass : bool) (k : pointer -> prog A)
| Deref (p : pointer) (k : object -> prog A)
| Halt (f : failure).
Arguments Ret {A} a.
Arguments Between {A} T lo hi valueid k.
Arguments Make {A} t valueid allow_subclass k.
Arguments Deref {A} p k.
Arguments Halt {A} f.

(** [harness<C>], as the header's comment describes it (lines 40-72):
    - the constructor [harness(gen&)] allocates [obj], an instance of
      [obj_class] built from the data [ctor] computes ([obj_class] is [C]
      itself, except for the stream harnesses);
    - [mroulette]: the non-constructor harness methods, [mcount] of them,
      each run on [obj];
    - [submakers]: one maker per direct subclass, [subcount] of them. *)
Record descriptor := {
  obj_class : string;
  ctor : prog (list Z);
  mroulette : list (nat -> prog unit);
  submakers : list (prog pointer)
}.

Definition mcount (h : descriptor) : Z := Z.of_nat (length (mroulette h)).
Definition subcount (h : descriptor) : Z := Z.of_nat (length (submakers h)).

(** What the header leaves to the rest of the program: the [typetag]
    specialisations (declared at line 87), the user's [spinlimit] (an
    [unsigned]) and the [harness] specialisations of the classes under
    test; and what it leaves to the implementation: [indeterminate T], the
    value that [T val;], declared without an initializer in [between],
    holds before anything is stored into it. *)
Class program := {
  typetag : numty -> byte;
  spinlimit : Z;
  harness : string -> descriptor;
  indeterminate : numty -> Z
}.

(** [runtime::depthlimit]. *)
Definition depthlimit : Z := 20.

(** Modelled from the spec: [gen::uniform_random] is declared in the header
    (line 273); its definition is not part of the sources at hand.  "In
    Generate, draws uniformly from [lo, hi] inclusive using a seeded
    pseudorandom source": the next raw draw is reduced into the range (for
    a floating type, the range of keys). *)
Definition uniform_random (T : numty) (lo hi : Z) (r : ranlux24)
  : Z * ranlux24 :=
  let (x, r') := next_draw r in
  if is_float T
  then (funkey T (fkey T lo + x mod (fkey T hi - fkey T lo + 1)), r')
  else (lo + x mod (hi - lo + 1), r').

Section Engine.
Context {P : program}.

(** One log record: tag, value bytes, id bytes. *)
Definition record (T : numty) (val id : Z) : list byte :=
  [typetag T] ++ encode T val ++ encode T_size_t id.

(** [gen::output]: logs val and id to olog. *)
Definition output (T : numty) (val id : Z) : M unit := fun g =>
  let l1 := olog g ++ [typetag T] in           (* olog.put(typetag(val)) *)
  let l2 := l1 ++ encode T val in              (* olog.write(&val, sizeof(val)) *)
  let l3 := l2 ++ encode T_size_t id in        (* olog.write(&id, sizeof(id)) *)
  Ok tt (set_olog l3 g).

(** [gen::input]: reads val from ilog.  [read] stores the bytes it gets
    over the first bytes of [val]; when the stream ends early the other
    bytes of [val] stay as they were, and nothing tests the stream. *)
Definition input (T : numty) : M Z := fun g =>
  let (c, s1) := stream_get (ilog g) in
  let ty := match c with Some b => b | None => Byte.xff end in    (* (char) EOF *)
  if Byte.eqb ty (typetag T) then              (* assert(ty == typetag(val)) *)
    let (bs, s2) := stream_read (sizeof T) s1 in
    let (_, s3) := stream_read (sizeof T_size_t) s2 in
    Ok (decode T (bs ++ drop (length bs) (encode T (indeterminate T))))
       (set_ilog s3 g)
  else Stop assertion_failed.

(** [gen::between]. *)
Definition between (T : numty) (lo hi : Z) (valueid : Z) : M Z :=
  let* val := fun g =>
                match runmode g with
                | generate =>
                    let (v, r) := uniform_random T lo hi (rgen g) in
                    Ok v (set_rgen r g)
                | replay => input T g
                end in
  let* _ := output T val valueid in
  ret val.

(** [new]: a fresh object at the next address. *)
Definition new (o : object) : M nat := fun g =>
  Ok (length (heap g)) (set_heap (heap g ++ [o]) g).

(** [*p]. *)
Definition load (p : pointer) : M object := fun g =>
  match p with
  | Some a => match heap g !! a with
              | Some o => Ok o g
              | None => Stop undefined_behaviour
              end
  | None => Stop undefined_behaviour
  end.

(** [*a = o]. *)
Definition assign (a : nat) (o : object) : M unit := fun g =>
  Ok tt (set_heap (<[a := o]> (heap g)) g).

(** [buf[i] = v] on a [char] array. *)
Definition write_char (buf : nat) (i : Z) (v : Z) : M unit :=
  let* o := load (Some buf) in
  match o with
  | OArr cells =>
      if (0 <=? i) && (i <? Z.of_nat (length cells))
      then assign buf (OArr (<[Z.to_nat i := Some v]> cells))
      else stop undefined_behaviour
  | _ => stop undefined_behaviour
  end.

(** [new char[n]]. *)
Definition new_chars (n : Z) : M nat :=
  if n <? 0 then stop uncaught_exception
  else new (OArr (replicate (Z.to_nat n) None)).

(** A roulette method is called on [obj]: the instance records it. *)
Definition invoked (obj : nat) (k : Z) : M unit :=
  let* o := load (Some obj) in
  match o with
  | OClass c data calls => assign obj (OClass c data (calls ++ [k]))
  | _ => stop undefined_behaviour
  end.

(** [gen::store]: p becomes the newest element of T's storage. *)
Definition store (t : ty) (p : nat) : M pointer := fun g =>
  Ok (Some p) (set_storage (<[t := pool g t ++ [p]]> (storage g)) g).

(** [storage[typeid(T)]]: the pool, created empty when absent. *)
Definition oldies_of (t : ty) : M (list nat) := fun g =>
  Ok (pool g t) (set_storage (<[t := pool g t]> (storage g)) g).

(** [gen::reuse]: [return false]. *)
Definition reuse : bool := false.

(** Runs harness code against the engine; [mk] is [make]. *)
Fixpoint run {A} (mk : ty -> Z -> bool -> M pointer) (p : prog A) : M A :=
  match p with
  | Ret a => ret a
  | Between T lo hi valueid k =>
      let* v := between T lo hi valueid in run mk (k v)
  | Make t valueid allow k =>
      let* h := mk t valueid allow in run mk (k h)
  | Deref p k =>
      let* o := load p in run mk (k o)
  | Halt f => stop f
  end.

(** The roulette loop of the class overload, [n] iterations to go. *)
Fixpoint spin (mk : ty -> Z -> bool -> M pointer) (h : descriptor)
    (obj : nat) (valueid : Z) (n : nat) : M unit :=
  match n with
  | O => ret tt
  | S n' =>
      let* k := between T_unsigned 0 (wrap T_unsigned (mcount h - 1))
                  valueid in
      match mroulette h !! Z.to_nat k with
      | Some m =>
          let* _ := invoked obj k in
          let* _ := run mk (m obj) in
          spin mk h obj valueid n'
      | None => stop undefined_behaviour
      end
  end.

(** [makenew], class overload (lines 208-226). *)
Definition makenew_class (mk : ty -> Z -> bool -> M pointer) (c : string)
    (valueid : Z) (allow_subclass : bool) : M pointer :=
  let h := harness c in
  let* sub := if negb (subcount h =? 0) && allow_subclass
              then let* x := between T_double dbl_0 dbl_1 valueid in
                   ret (num_gt T_double x dbl_half)
              else ret false in
  if sub : bool then
    let* i := between T_size_t 0 (wrap T_size_t (subcount h - 1)) valueid in
    match submakers h !! Z.to_nat i with
    | Some f => run mk f
    | None => stop undefined_behaviour
    end
  else
    let* data := run mk (ctor h) in            (* harness<T> h( *this ) *)
    let* obj := new (OClass (obj_class h) data []) in
    let* _ := if negb (mcount h =? 0)
              then let* e := between T_unsigned 0 spinlimit valueid in
                   spin mk h obj valueid (Z.to_nat e)
              else ret tt in
    store (TClass (obj_class h)) obj.

(** The fill loop of the char* overload: [n] iterations from index [i]. *)
Fixpoint fill_chars (buf : nat) (valueid : Z) (n : nat) (i : Z) : M unit :=
  match n with
  | O => ret tt
  | S n' =>
      let* c := between T_char (numeric_min T_char) (numeric_max T_char)
                  valueid in
      let* _ := write_char buf i c in
      fill_chars buf valueid n' (i + 1)
  end.

(** [makenew], char* overload (lines 247-259). *)
Definition makenew_char_ptr (mk : ty -> Z -> bool -> M pointer)
    (valueid : Z) : M pointer :=
  let* r := new (OPtr (TNum T_char) None) in   (* new char* *)
  let* p := mk (TNum T_size_t) (wrap T_size_t (1000000 + valueid)) false in
  let* o := load p in
  match o with
  | ONum _ sz =>
      let* buf := new_chars (wrap T_size_t (sz + 1)) in
      let* _ := assign r (OPtr (TNum T_char) (Some buf)) in
      let* _ := write_char buf sz 0 in
      let* _ := fill_chars buf valueid (Z.to_nat sz) 0 in
      ret (Some r)
  | _ => stop undefined_behaviour
  end.

(** [gen::makenew]: the overload is chosen by T's category. *)
Definition makenew (mk : ty -> Z -> bool -> M pointer) (t : ty)
    (valueid : Z) (allow_subclass : bool) : M pointer :=
  match t with
  | TNum T =>
      let* v := between T (numeric_min T) (numeric_max T) valueid in
      let* a := new (ONum T v) in
      store t a
  | TClass c => makenew_class mk c valueid allow_subclass
  | TVoid =>
      let* n := between T_int 1 4196 valueid in
      let* a := new_chars n in
      store TVoid a
  | TPtr pointee =>
      if is_char_ptr t then makenew_char_ptr mk valueid
      else
        let* p := mk pointee valueid allow_subclass in
        let* a := new (OPtr pointee p) in
        store t a
  | TFunc => ret None
  end.

(** [gen::make].  [fuel] bounds the nesting of [make] calls. *)
Fixpoint make (fuel : nat) (t : ty) (valueid : Z) (allow_subclass : bool)
  : M pointer :=
  match fuel with
  | O => stop out_of_fuel
  | S f =>
      let* oldies := oldies_of t in
      if negb (bool_decide (oldies = [])) && reuse then
        let* i := between T_size_t 0
                    (wrap T_size_t (Z.of_nat (length oldies) - 1)) valueid in
        match oldies !! Z.to_nat i with
        | Some a => ret (Some a)
        | None => stop undefined_behaviour
        end
      else makenew (make f) t valueid allow_subclass
  end.

End Engine.

(** ** The built-in harness specialisations (lines 305-400) *)

(** Sequencing of harness code. *)
Fixpoint pbind {A B} (p : prog A) (f : A -> prog B) : prog B :=
  match p with
  | Ret a => f a
  | Between T lo hi valueid k => Between T lo hi valueid (fun v => pbind (k v) f)
  | Make t valueid allow k => Make t valueid allow (fun h => pbind (k h) f)
  | Deref p k => Deref p (fun o => pbind (k o) f)
  | Halt e => Halt e
  end.

(** [*g.make<T>(valueid)] for an arithmetic [T]. *)
Definition make_value (T : numty) (valueid : Z) : prog Z :=
  Make (TNum T) valueid false (fun p =>
  Deref p (fun o =>
  match o with ONum _ v => Ret v | _ => Halt undefined_behaviour end)).

(** [harness<std::exception>]. *)
Definition harness_exception : descriptor :=
  {| obj_class := "std::exception"; ctor := Ret [];
     mroulette := []; submakers := [] |}.

(** The loop of [harness<std::basic_string>]'s constructor,
    [for (size_t i = 0; i < obj->size() - 1; ++i) obj[i] = g.between<CharT>(1, max, 4)],
    on the string content [s].  [obj] is the pointer to the string: [obj[0]]
    is the string itself, and assigning a character to it
    ([basic_string::operator=(CharT)]) makes it that one character; [obj[i]]
    for [i > 0] is past the object.  [fuel] bounds the iterations. *)
Fixpoint string_loop (fuel : nat) (i : Z) (s : list Z) : prog (list Z) :=
  match fuel with
  | O => Halt out_of_fuel
  | S f =>
      if i <? wrap T_size_t (Z.of_nat (length s) - 1) then
        Between T_char 1 (numeric_max T_char) 4 (fun c =>
          if i =? 0 then string_loop f (wrap T_size_t (i + 1)) [c]
          else Halt undefined_behaviour)
      else Ret s
  end.

(** [obj->back() = CharT(0)]. *)
Definition set_back (s : list Z) : prog (list Z) :=
  match s with
  | [] => Halt undefined_behaviour
  | _ => Ret (<[pred (length s) := 0]> s)
  end.

(** [harness<std::basic_string<char>>]: the string starts as
    [*g.make<size_t>(3)] copies of [CharT()]. *)
Definition harness_string (fuel : nat) : descriptor :=
  {| obj_class := "std::string";
     ctor := pbind (make_value T_size_t 3) (fun n =>
             pbind (string_loop fuel 0 (replicate (Z.to_nat n) 0)) set_back);
     mroulette := []; submakers := [] |}.

(** The loop of [harness<std::vector<Tp>>]'s constructor for an arithmetic
    [Tp]: [( *obj)[i] = *g.make<Tp>(2)] for each index. *)
Fixpoint vector_loop (Tp : numty) (n : nat) : prog (list Z) :=
  match n with
  | O => Ret []
  | S k => pbind (make_value Tp 2) (fun v =>
           pbind (vector_loop Tp k) (fun vs => Ret (v :: vs)))
  end.

(** [harness<std::vector<Tp>>], [Tp] arithmetic. *)
Definition harness_vector (name : string) (Tp : numty) : descriptor :=
  {| obj_class := name;
     ctor := pbind (make_value T_size_t 1) (fun n => vector_loop Tp (Z.to_nat n));
     mroulette := []; submakers := [] |}.

(** [harness<std::basic_istream<char>>]: [obj] is a
    [std::basic_istringstream] built from [*g.make<std::string>(5)]. *)
Definition harness_istream : descriptor :=
  {| obj_class := "std::istringstream";
     ctor := Make (TClass "std::string") 5 false (fun p =>
             Deref p (fun o =>
             match o with
             | OClass _ s _ => Ret s
             | _ => Halt undefined_behaviour
             end));
     mroulette := []; submakers := [] |}.

(** [harness<std::basic_ostream<char>>]: [obj] is a fresh
    [std::basic_ostringstream]. *)
Definition harness_ostream : descriptor :=
  {| obj_class := "std::ostringstream"; ctor := Ret [];
     mroulette := []; submakers := [] |}.

(** A program's harness table, the built-in specialisations first. *)
Definition with_builtins (fuel : nat) (user : string -> descriptor)
    (c : string) : descriptor :=
  if decide (c = "std::exception") then harness_exception
  else if decide (c = "std::string") then harness_string fuel
  else if decide (c = "std::istream") then harness_istream
  else if decide (c = "std::ostream") then harness_ostream
  else if decide (c = "std::vector<int>") then harness_vector c T_int
  else user c.

(** ** Sessions of [between] calls *)

(** One call [between<T>(lo, hi, valueid)]. *)
Record call := { c_type : numty; c_lo : Z; c_hi : Z; c_id : Z }.

(** The calls of a session, in order; the values returned, in order. *)
Fixpoint session {P : program} (cs : list call) : M (list Z) :=
  match cs with
  | [] => ret []
  | c :: rest =>
      let* v := between (c_type c) (c_lo c) (c_hi c) (c_id c) in
      let* vs := session rest in
      ret (v :: vs)
  end.

(** The log holding one record per call, with the given values and ids. *)
Fixpoint log_of (P : program) (cs : list call) (vals ids : list Z)
  : list byte :=
  match cs, vals, ids with
  | c :: cs', v :: vals', i :: ids' =>
      record (c_type c) v i ++ log_of P cs' vals' ids'
  | _, _, _ => []
  end.

(** The values a replay reads back from the stored [vals]. *)
Definition stored (cs : list call) (vals : list Z) : list Z :=
  zip_with (fun c v => decode (c_type c) (encode (c_type c) v)) cs vals.

(** The arguments of a call are values of its type, in order. *)
Definition call_ok (c : call) : Prop :=
  representable (c_type c) (c_lo c) /\ representable (c_type c) (c_hi c) /\
  num_le (c_type c) (c_lo c) (c_hi c) = true.

(** ** Example programs *)

(** A tag per type: its position in the list of types. *)
Definition demo_typetag (T : numty) : byte :=
  byte.of_Z (Z.of_nat (numty_code T)).

Definition no_harness (c : string) : descriptor :=
  {| obj_class := c; ctor := Ret []; mroulette := []; submakers := [] |}.

(** A program with the built-in harnesses only; [spinlimit] as in
    [test/inh-tmpl.cpp]; a fresh variable holds zero. *)
Definition demo_program : program :=
  {| typetag := demo_typetag; spinlimit := 3;
     harness := with_builtins 2 no_harness;
     indeterminate := fun _ => 0 |}.

(** A class [C] with one no-argument constructor and one method that draws
    an [int]; a class [D] derived from it. *)
Definition demo_classes (c : string) : descriptor :=
  if decide (c = "C") then
    {| obj_class := "C"; ctor := Ret [];
       mroulette := [fun _ => Between T_int 0 9 7 (fun _ => Ret tt)];
       submakers := [Make (TClass "D") 8 true Ret] |}
  else
    {| obj_class := c; ctor := Ret []; mroulette := []; submakers := [] |}.

Definition demo_program2 : program :=
  {| typetag := demo_typetag; spinlimit := 3;
     harness := with_builtins 2 demo_classes;
     indeterminate := fun _ => 0 |}.

(** A generator whose raw draws count up from [k]. *)
Definition counting (k : Z) : ranlux24 :=
  {| draws := fun n => k + Z.of_nat n; drawn := 0 |}.

(** ** lib/Util.cpp: the visibility predicate *)

(** [clang::AccessSpecifier]. *)
Inductive AccessSpecifier : Set :=
| AS_public | AS_protected | AS_private | AS_none.

(** The part of the clang AST [globally_visible] looks at: a declaration
    context with the chain of its lookup parents up to the translation
    unit.  A class carries its identifier (None for an anonymous class),
    its access specifier and, when it is the pattern of a class template,
    the template's access specifier. *)
Inductive DeclContext : Type :=
| TranslationUnitDecl
| NamespaceDecl (isAnonymousNamespace : bool) (getLookupParent : DeclContext)
| RecordContext (r : CXXRecordDecl)
| OtherContext (getLookupParent : DeclContext)   (* a function, ... *)
with CXXRecordDecl : Type :=
| Class_ (getIdentifier : option string)
         (access : AccessSpecifier)
         (getDescribedClassTemplate : option AccessSpecifier)
         (getLookupParent : DeclContext).

Scheme DeclContext_mut := Induction for DeclContext Sort Prop
  with CXXRecordDecl_mut := Induction for CXXRecordDecl Sort Prop.

(** [getAccess]: C's or its described template's access specifier. *)
Definition getAccess (C : CXXRecordDecl) : AccessSpecifier :=
  match C with
  | Class_ _ acc (Some t) _ => t
  | Class_ _ acc None _ => acc
  end.

Definition identifier_of (C : CXXRecordDecl) : option string :=
  match C with Class_ id _ _ _ => id end.

Definition parent_of (C : CXXRecordDecl) : DeclContext :=
  match C with Class_ _ _ _ p => p end.

(** [globally_visible] on a non-null [C], and its [while] loop from [ctx];
    a context that is neither the translation unit, a namespace nor a class
    makes the [dyn_cast] null. *)
Fixpoint visible_record (C : CXXRecordDecl) : bool :=
  match C with
  | Class_ id acc tmpl parent =>
      match id with
      | None => false
      | Some _ =>
          match getAccess (Class_ id acc tmpl parent) with
          | AS_private | AS_protected => false
          | _ => visible_from parent
          end
      end
  end
with visible_from (ctx : DeclContext) : bool :=
  match ctx with
  | TranslationUnitDecl => true
  | NamespaceDecl anonymous parent =>
      if anonymous then false else visible_from parent
  | RecordContext r => visible_record r
  | OtherContext _ => false
  end.

(** [globally_visible(C)]; None is the null pointer. *)
Definition globally_visible (C : option CXXRecordDecl) : bool :=
  match C with
  | None => false
  | Some r => visible_record r
  end.

(** Some enclosing scope of [ctx], or [ctx] itself, is an anonymous
    namespace. *)
Fixpoint within_anonymous (ctx : DeclContext) : bool :=
  match ctx with
  | TranslationUnitDecl => false
  | NamespaceDecl anonymous parent => anonymous || within_anonymous parent
  | RecordContext r => record_within_anonymous r
  | OtherContext parent => within_anonymous parent
  end
with record_within_anonymous (C : CXXRecordDecl) : bool :=
  match C with
  | Class_ _ _ _ parent => within_anonymous parent
  end.

(** Scenario D: [namespace { class Outer { public: class Inner {}; }; }]. *)
Definition scenario_D_outer : CXXRecordDecl :=
  Class_ (Some "Outer") AS_none None (NamespaceDecl true TranslationUnitDecl).
Definition scenario_D_inner : CXXRecordDecl :=
  Class_ (Some "Inner") AS_public None (RecordContext scenario_D_outer).

(** ** Properties of engine states *)

(** The type whose pool an object is stored in when [makenew] stores it:
    its own type ([new char[n]] is stored as [void]). *)
Definition kind (o : object) : ty :=
  match o with
  | ONum T _ => TNum T
  | OPtr t _ => TPtr t
  | OArr _ => TVoid
  | OClass c _ _ => TClass c
  end.

(** How many roulette methods were invoked on an object. *)
Definition calls_of (o : object) : nat :=
  match o with OClass _ _ calls => length calls | _ => 0%nat end.

(** Every handle of T's pool points to an object of exactly type T. *)
Definition pools_exact (g : gen) : Prop :=
  forall t a, a ∈ pool g t -> exists o, heap g !! a = Some o /\ kind o = t.

(** No instance has had more than [spinlimit] roulette methods invoked. *)
Definition calls_bounded {P : program} (g : gen) : Prop :=
  forall a o, heap g !! a = Some o -> Z.of_nat (calls_of o) <= spinlimit.

(** [d] is a strict subtype of [t], given the program's inheritance
    relation: a class other than [t] that derives from it. *)
Definition strict_subtype (derives : string -> string -> Prop)
    (d : string) (t : ty) : Prop :=
  exists c, t = TClass c /\ d <> c /\ derives d c.

(** The states an engine goes through: a fresh engine, and what the public
    members and the harness code run on it lead to. *)
Inductive reachable {P : program} : gen -> Prop :=
| reach_generate r : reachable (gen_generate r)
| reach_replay r input : reachable (gen_replay r input)
| reach_between g T lo hi id v g' :
    reachable g -> between T lo hi id g = Ok v g' -> reachable g'
| reach_make g fuel t id allow p g' :
    reachable g -> make fuel t id allow g = Ok p g' -> reachable g'
| reach_run g fuel (code : prog unit) g' :
    reachable g -> run (make fuel) code g = Ok tt g' -> reachable g'.

(** The number of pointer objects on the way from [p] to the first object
    that is not a pointer, following at most [n] links. *)
Fixpoint ptr_depth (h : list object) (n : nat) (p : pointer) : nat :=
  match n, p with
  | S k, Some a =>
      match h !! a with
      | Some (OPtr _ q) => S (ptr_depth h k q)
      | _ => O
      end
  | _, _ => O
  end.

(** The objects a pointer-chain synthesis creates from address [base] on:
    the value, then one slot per pointer level, each holding the address
    of the object before it. *)
Definition pointer_chain (base : nat) (T : numty) (v : Z) (n : nat)
  : list object :=
  ONum T v ::
  map (fun i => OPtr (ptr_to i (TNum T)) (Some (base + i)%nat)) (seq 0 n).

(** The invariant of the engine's state. *)
Definition inv {P : program} (g : gen) : Prop :=
  pools_exact g /\ (runmode g = generate -> 0 <= spinlimit -> calls_bounded g).

(** From [g] to [g']: the mode stays, no object goes away or changes its
    type, and the objects below address [n] stay as they are. *)
Definition evolves (n : nat) (g g' : gen) : Prop :=
  runmode g' = runmode g /\
  (length (heap g) <= length (heap g'))%nat /\
  (forall a, (a < n)%nat -> heap g' !! a = heap g !! a) /\
  (forall a o, heap g !! a = Some o ->
     exists o', heap g' !! a = Some o' /\ kind o' = kind o).

(** What a call leaves: the objects that existed before are untouched, and
    the invariant still holds. *)
Definition step {P : program} (g g' : gen) : Prop :=
  evolves (length (heap g)) g g' /\ (inv g -> inv g').

(** What the proofs about [makenew] ask of the [make] it calls. *)
Definition good_make {P : program} (mk : ty -> Z -> bool -> M pointer) : Prop :=
  forall t id allow g p g', mk t id allow g = Ok p g' -> step g g'.

(** ** Example runs *)

(** Scenario A: three calls [between(0, 10, 42)]. *)
Definition scenario_A : list call :=
  replicate 3 {| c_type := T_int; c_lo := 0; c_hi := 10; c_id := 42 |}.


(** An input log for [make<std::string>]: length 3, then the character 'A'. *)
Definition string_log : list byte :=
  @record demo_program T_size_t 3 3 ++ @record demo_program T_char 65 4.

(** An input log for [make<char*>]: the length [SIZE_MAX]. *)
Definition size_max_log : list byte :=
  @record demo_program T_size_t (2 ^ 64 - 1) 1000001.

(** The state a run ends in. *)
Definition state_of {A} (o : outcome A) : gen :=
  match o with
  | Ok _ g => g
  | Stop _ => gen_generate (counting 0)
  end.

(** The engine after one [make<C>(1, or_subclass)] in generate mode. *)
Definition demo_state : gen :=
  state_of (@make demo_program2 3 (TClass "C") 1 true
              (gen_generate (counting 2))).

(** A public class [A] declared in a named namespace. *)
Definition visible_class : CXXRecordDecl :=
  Class_ (Some "A") AS_public None (NamespaceDecl false TranslationUnitDecl).

(** ** Replaying a run of [make] *)

(** Harness code whose calls of [between] have bounds of the type, in
    order. *)
Inductive prog_ok {A : Type} : prog A -> Prop :=
| ok_Ret a : prog_ok (Ret a)
| ok_Between T lo hi valueid k :
    call_ok {| c_type := T; c_lo := lo; c_hi := hi; c_id := valueid |} ->
    (forall v, prog_ok (k v)) -> prog_ok (Between T lo hi valueid k)
| ok_Make t valueid allow k :
    (forall h, prog_ok (k h)) -> prog_ok (Make t valueid allow k)
| ok_Deref p k : (forall o, prog_ok (k o)) -> prog_ok (Deref p k)
| ok_Halt f : prog_ok (Halt f).

(** A program whose [spinlimit] is an [unsigned] and whose harness code
    calls [between] with bounds in order. *)
Definition program_ok (P : program) : Prop :=
  0 <= spinlimit < 2 ^ 32 /\
  forall c,
    prog_ok (ctor (harness c)) /\
    (forall m obj, m ∈ mroulette (harness c) -> prog_ok (m obj)) /\
    (forall f, f ∈ submakers (harness c) -> prog_ok f).

(** The replaying engine [gr] after it has read [w] and re-written it,
    holding the objects and pools of [g1]. *)
Definition replayed (g1 gr : gen) (w rest : list byte) : gen :=
  {| runmode := replay; rgen := rgen gr; olog := olog gr ++ w;
     ilog := {| unread := rest; failed := false |};
     storage := storage g1; heap := heap g1 |}.

(** [m] replays: whatever [m] returns in generate mode, writing [w] to the
    output log, it returns again in replay mode from the same objects and
    pools when the input starts with [w], and it ends with the same
    objects and pools. *)
Definition mirrors {A : Type} (m : M A) : Prop :=
  forall g a g1,
    runmode g = generate -> m g = Ok a g1 ->
    runmode g1 = generate /\
    exists w,
      olog g1 = olog g ++ w /\
      forall gr rest,
        runmode gr = replay -> heap gr = heap g -> storage gr = storage g ->
        ilog gr = {| unread := w ++ rest; failed := false |} ->
        m gr = Ok a (replayed g1 gr w rest).

(** ** What a run of [make] leaves as it is *)

(** The types whose [makenew] overload ends in [store]: every category
    but [char*] and functions. *)
Definition storable (t : ty) : bool :=
  match t with
  | TFunc => false
  | _ => negb (is_char_ptr t)
  end.

(** [m] keeps [R]: whenever it returns, the engine before and the engine
    after are related by [R]. *)
Definition keeps {A : Type} (R : gen -> gen -> Prop) (m : M A) : Prop :=
  forall g a g', m g = Ok a g' -> R g g'.

(** A relation that every elementary step of the engine keeps: the calls
    of [between], the changes of the free store, [store] on a storable
    type and the look-up of a pool. *)
Record framed {P : program} (R : gen -> gen -> Prop) : Prop := {
  framed_refl : forall g, R g g;
  framed_trans : forall g1 g2 g3, R g1 g2 -> R g2 g3 -> R g1 g3;
  framed_between : forall T lo hi id, keeps R (between T lo hi id);
  framed_heap : forall g h, R g (set_heap h g);
  framed_store : forall g t a,
    storable t = true ->
    R g (set_storage (<[t := pool g t ++ [a]]> (storage g)) g);
  framed_oldies : forall g t,
    R g (set_storage (<[t := pool g t]> (storage g)) g)
}.

(** The log records [recs] stands for. *)
Definition records {P : program} (recs : list (numty * Z * Z)) : list byte :=
  mjoin (map (fun r => record r.1.1 r.1.2 r.2) recs).

(** The output log has grown by whole records. *)
Definition logs_records {P : program} (g g' : gen) : Prop :=
  runmode g' = runmode g /\
  exists recs, olog g' = olog g ++ records recs.

(** The source of values that the mode does not use is untouched: the
    random generator in replay mode, the input log in generate mode. *)
Definition spares_source (g g' : gen) : Prop :=
  runmode g' = runmode g /\
  (runmode g = replay -> rgen g' = rgen g) /\
  (runmode g = generate -> ilog g' = ilog g).

(** Pools only grow at their end, and the pools of the types that are not
    storable stay as they are. *)
Definition pools_grow (g g' : gen) : Prop :=
  forall t,
    pool g t `prefix_of` pool g' t /\
    (storable t = false -> pool g' t = pool g t).

(** The type under which [makenew] stores what it creates for [t]. *)
Definition stored_under {P : program} (t : ty) : ty :=
  match t with
  | TClass c => TClass (obj_class (harness c))
  | _ => t
  end.

(** The class a type is a pointer chain over, if any. *)
Definition class_of (t : ty) : option string :=
  match ty_base t with
  | inl (inr c) => Some c
  | _ => None
  end.

(** ** lib/Util.cpp: more on the visibility predicate *)

(** The classes that enclose a context, the innermost first. *)
Fixpoint enclosing_classes (ctx : DeclContext) : list CXXRecordDecl :=
  match ctx with
  | TranslationUnitDecl => []
  | NamespaceDecl _ parent => enclosing_classes parent
  | RecordContext r => r :: record_enclosing_classes r
  | OtherContext parent => enclosing_classes parent
  end
with record_enclosing_classes (C : CXXRecordDecl) : list CXXRecordDecl :=
  match C with
  | Class_ _ _ _ parent => enclosing_classes parent
  end.

(** Some enclosing scope of [ctx], or [ctx] itself, is neither the
    translation unit, a namespace nor a class: a function body, say. *)
Fixpoint within_other (ctx : DeclContext) : bool :=
  match ctx with
  | TranslationUnitDecl => false
  | NamespaceDecl _ parent => within_other parent
  | RecordContext r => record_within_other r
  | OtherContext _ => true
  end
with record_within_other (C : CXXRecordDecl) : bool :=
  match C with
  | Class_ _ _ _ parent => within_other parent
  end.

(** The two tests [globally_visible] makes on the class itself: it has an
    identifier, and its access is neither private nor protected. *)
Definition passes_own_tests (C : CXXRecordDecl) : bool :=
  match identifier_of C with
  | None => false
  | Some _ =>
      match getAccess C with
      | AS_private | AS_protected => false
      | _ => true
      end
  end.

(** A public class nested in a private class of a named namespace. *)
Definition hidden_outer : CXXRecordDecl :=
  Class_ (Some "Outer") AS_private None (NamespaceDecl false TranslationUnitDecl).
Definition hidden_inner : CXXRecordDecl :=
  Class_ (Some "Inner") AS_public None (RecordContext hidden_outer).

(** A public class nested in a public class of a named namespace. *)
Definition visible_inner : CXXRecordDecl :=
  Class_ (Some "Inner") AS_public None (RecordContext visible_class).

(** ** lib/Util.cpp: names for template parameters *)

Module NameGetter.

(** A [clang::NamedDecl] as [get] sees it: the address of the declaration,
    which is the key of [placeholders], and the name of its identifier
    (None when [getIdentifier()] is null). *)
Record NamedDecl := { address : nat; getIdentifier : option string }.

(** The members of class [NameGetter] that [get] reads and writes.
    [watermark] numbers the placeholders; it is taken as a counter that
    does not overflow. *)
Record t := {
  placeholder_prefix : string;
  watermark : N;
  placeholders : gmap nat string
}.

(** [std::to_string] on the counter: its decimal digits. *)
Definition to_string (n : N) : string := pretty n.

(** [NameGetter::get]: the name, and the getter afterwards. *)
Definition get (decl : NamedDecl) (ng : t) : string * t :=
  let name := match getIdentifier decl with
              | Some id => id
              | None => EmptyString
              end in
  match name with
  | String _ _ => (name, ng)
  | EmptyString =>
      match placeholders ng !! address decl with
      | Some found => (found, ng)
      | None =>
          let fresh := placeholder_prefix ng +:+ to_string (watermark ng) in
          (fresh,
           {| placeholder_prefix := placeholder_prefix ng;
              watermark := (watermark ng + 1)%N;
              placeholders := <[address decl := fresh]> (placeholders ng) |})
      end
  end.

(** The declarations [get] makes up a name for: the identifier is null or
    its name is empty. *)
Definition nameless (decl : NamedDecl) : bool :=
  match getIdentifier decl with
  | Some (String _ _) => false
  | _ => true
  end.

(** The placeholders handed out so far are the prefix followed by a number
    below the watermark, and no two declarations share one. *)
Definition sound (ng : t) : Prop :=
  (forall a s, placeholders ng !! a = Some s ->
     exists k, (k < watermark ng)%N /\
               s = placeholder_prefix ng +:+ to_string k) /\
  (forall a b s, placeholders ng !! a = Some s ->
     placeholders ng !! b = Some s -> a = b).

End NameGetter.

(** A template parameter as [parameters] and [print_names_with_types] see
    it: the declaration, and which of [TemplateTypeParmDecl] (with
    [wasDeclaredWithTypename()]), [NonTypeTemplateParmDecl] (with what
    [getType().print(os, RFPP(), name)] writes for a name, which is
    clang's business) and [TemplateTemplateParmDecl] it is. *)
Inductive parm_kind : Type :=
| TemplateTypeParm (wasDeclaredWithTypename : bool)
| NonTypeTemplateParm (print : string -> string)
| TemplateTemplateParm.

Record template_parameter := {
  par_decl : NameGetter.NamedDecl;
  par_kind : parm_kind
}.

(** The loop of [parameters]: the names of the parameters from the [i]-th
    on, each but the first after a comma, appended to [s]. *)
Fixpoint parameters_loop (pars : list template_parameter) (i : nat)
    (s : string) (ng : NameGetter.t) : string * NameGetter.t :=
  match pars with
  | [] => (s, ng)
  | par :: rest =>
      let sep := match i with O => EmptyString | S _ => ", " end in
      let (name, ng') := NameGetter.get (par_decl par) ng in
      parameters_loop rest (S i) (s +:+ sep +:+ name) ng'
  end.

(** [parameters]: [tmpl] is the template's parameter list, None for a null
    pointer. *)
Definition parameters (tmpl : option (list template_parameter))
    (ng : NameGetter.t) : string * NameGetter.t :=
  match tmpl with
  | None => (EmptyString, ng)
  | Some pars =>
      let (s, ng') := parameters_loop pars 0 "<" ng in
      (s +:+ ">", ng')
  end.

(** [print_names_with_types], from index [idx] on, appending to [os].  A
    parameter that is neither a type nor a non-type parameter gets its
    name from [ng] like the others, and nothing is written for it after
    the separator. *)
Fixpoint print_names_with_types (params : list template_parameter)
    (idx : nat) (os : string) (ng : NameGetter.t) : string * NameGetter.t :=
  match params with
  | [] => (os, ng)
  | par :: rest =>
      let os1 := os +:+ match idx with O => EmptyString | S _ => ", " end in
      let (name, ng') := NameGetter.get (par_decl par) ng in
      let os2 :=
        match par_kind par with
        | TemplateTypeParm typename =>
            os1 +:+ (if typename then "typename " else "class ") +:+ name
        | NonTypeTemplateParm print => os1 +:+ print name
        | TemplateTemplateParm => os1
        end in
      print_names_with_types rest (S idx) os2 ng'
  end.

(** The new-line character. *)
Definition newline : string :=
  String (Ascii.Ascii false true false true false false false false)
         EmptyString.

(** [template_preamble]. *)
Definition template_preamble (templ : option (list template_parameter))
    (ng : NameGetter.t) : string * NameGetter.t :=
  match templ with
  | None => (EmptyString, ng)
  | Some params =>
      let (rs, ng') := print_names_with_types params 0 "template<" ng in
      (rs +:+ ">" +:+ newline, ng')
  end.

(** A getter that has named nothing, and two nameless declarations. *)
Definition fresh_getter : NameGetter.t :=
  {| NameGetter.placeholder_prefix := "ramfuzz_placeholder";
     NameGetter.watermark := 0; NameGetter.placeholders := ∅ |}.
Definition unnamed (a : nat) : NameGetter.NamedDecl :=
  {| NameGetter.address := a; NameGetter.getIdentifier := None |}.
Definition named (a : nat) (id : string) : NameGetter.NamedDecl :=
  {| NameGetter.address := a; NameGetter.getIdentifier := Some id |}.

(** ** More example runs *)

(** [make<int*>(5)] on a fresh generating engine. *)
Definition int_ptr_state : gen :=
  state_of (@make demo_program 2 (TPtr (TNum T_int)) 5 false
              (gen_generate (counting 2))).

(** A replay of the log that [demo_state] has written. *)
Definition demo_replay : gen := gen_replay (counting 9) (olog demo_state).
Definition demo_replay_state : gen :=
  state_of (@make demo_program2 3 (TClass "C") 1 true demo_replay).

(** [make<std::vector<int>>(1)] on a fresh generating engine. *)
Definition vector_state : gen :=
  state_of (@make demo_program 3 (TClass "std::vector<int>") 1 false
              (gen_generate (counting 2))).

(** [make<char*>(1)] on a fresh generating engine. *)
Definition char_ptr_state : gen :=
  state_of (@make demo_program 2 (TPtr (TNum T_char)) 1 false
              (gen_generate (counting 2))).

(** A replay whose log holds the [int] 5. *)
Definition void_replay : gen :=
  gen_replay (counting 0) (@record demo_program T_int 5 9).

(** A replay whose log breaks off after one byte of an [int]. *)
Definition truncated_replay : gen :=
  gen_replay (counting 0) [@typetag demo_program T_int; Byte.x01].

(** A replay whose log holds the [int] 1 and two bytes of its id. *)
Definition short_id_replay : gen :=
  gen_replay (counting 0)
    (@typetag demo_program T_int ::
     [Byte.x01; Byte.x00; Byte.x00; Byte.x00] ++ [Byte.x2a; Byte.x00]).



(** ** What a run depends on *)



Lemma decode_encode T v : representable T v -> decode T (encode T v) = v.
Proof.
  unfold decode, encode, representable. intros H.
  rewrite le_combine_split.
  replace (Z.of_nat (sizeof T) * 8) with (bitsof T) by (unfold bitsof; lia).
  assert (Hb : 0 < bitsof T) by (destruct T; cbv; reflexivity).
  assert (Hp : 2 ^ bitsof T = 2 * 2 ^ (bitsof T - 1)).
  { rewrite <- Z.pow_succ_r by lia. f_equal. lia. }
  assert (Hq : 0 < 2 ^ (bitsof T - 1)) by (apply Z.pow_pos_nonneg; lia).
  destruct (is_float T) eqn:Hf.
  - assert (is_signed T = false) as -> by (destruct T; auto; discriminate).
    simpl. apply Z.mod_small; lia.
  - destruct (is_signed T); simpl.
    + destruct (Z.ltb_spec v 0).
      * replace (v mod 2 ^ bitsof T) with (v + 2 ^ bitsof T).
        -- destruct (Z.leb_spec (2 ^ (bitsof T - 1)) (v + 2 ^ bitsof T)); lia.
        -- apply Z.mod_unique with (-1); lia.
      * rewrite Z.mod_small by lia.
        destruct (Z.leb_spec (2 ^ (bitsof T - 1)) v); lia.
    + apply Z.mod_small; lia.
Qed.

(** ** The log codec and [between] *)

Section Codec.
Context {P : program}.

Lemma encode_length T v : length (encode T v) = sizeof T.
Proof. apply length_le_split. Qed.

Lemma bitsof_pos T : 0 < bitsof T.
Proof. by destruct T. Qed.

Lemma pow_bitsof T : 2 ^ bitsof T = 2 * 2 ^ (bitsof T - 1).
Proof.
  pose proof (bitsof_pos T).
  rewrite <- Z.pow_succ_r by lia. f_equal. lia.
Qed.

Lemma inf_bits_range T : is_float T = true -> 0 < inf_bits T < 2 ^ (bitsof T - 1).
Proof. by destruct T. Qed.

(** A representable pattern that is not a NaN has a key within the
    infinities. *)
Lemma fkey_bound T b :
  is_float T = true -> 0 <= b < 2 ^ bitsof T -> fnan T b = false ->
  - inf_bits T <= fkey T b <= inf_bits T.
Proof.
  intros Hf Hb Hn. pose proof (inf_bits_range T Hf) as Hi.
  pose proof (pow_bitsof T) as Hp.
  unfold fnan in Hn. apply Z.ltb_ge in Hn. unfold fkey.
  destruct (Z.ltb_spec b (2 ^ (bitsof T - 1))).
  - rewrite Z.mod_small in Hn by lia. lia.
  - replace (b mod 2 ^ (bitsof T - 1)) with (b - 2 ^ (bitsof T - 1)) in Hn.
    + lia.
    + apply Z.mod_unique with 1; lia.
Qed.

(** Every key within the infinities is the key of a representable pattern
    that is not a NaN. *)
Lemma funkey_spec T k :
  is_float T = true -> - inf_bits T <= k <= inf_bits T ->
  fkey T (funkey T k) = k /\ fnan T (funkey T k) = false /\
  0 <= funkey T k < 2 ^ bitsof T.
Proof.
  intros Hf Hk. pose proof (inf_bits_range T Hf) as Hi.
  pose proof (pow_bitsof T) as Hp.
  unfold funkey, fkey, fnan.
  destruct (Z.leb_spec 0 k).
  - destruct (Z.ltb_spec k (2 ^ (bitsof T - 1))); [| lia].
    rewrite Z.mod_small by lia.
    repeat split; try lia; try (apply Z.ltb_ge; lia).
  - destruct (Z.ltb_spec (2 ^ (bitsof T - 1) - k) (2 ^ (bitsof T - 1))); [lia |].
    replace ((2 ^ (bitsof T - 1) - k) mod 2 ^ (bitsof T - 1)) with (- k)
      by (apply Z.mod_unique with 1; lia).
    repeat split; try lia; try (apply Z.ltb_ge; lia).
Qed.

Lemma num_le_float T a b :
  is_float T = true -> num_le T a b = true ->
  fnan T a = false /\ fnan T b = false /\ fkey T a <= fkey T b.
Proof.
  unfold num_le. intros -> H.
  apply andb_true_iff in H as [H H3]. apply andb_true_iff in H as [H1 H2].
  apply negb_true_iff in H1, H2. apply Z.leb_le in H3. done.
Qed.

(** What [uniform_random] returns lies between its bounds and is a value of
    the type. *)
Lemma uniform_random_range T lo hi r :
  call_ok {| c_type := T; c_lo := lo; c_hi := hi; c_id := 0 |} ->
  let v := fst (uniform_random T lo hi r) in
  num_le T lo v = true /\ num_le T v hi = true /\ representable T v.
Proof.
  intros (Hlo & Hhi & Hle). simpl in *.
  unfold uniform_random, next_draw. simpl.
  destruct (is_float T) eqn:Hf; simpl.
  - destruct (num_le_float _ _ _ Hf Hle) as (Hn1 & Hn2 & Hk).
    unfold representable in *. rewrite Hf in *.
    pose proof (fkey_bound T lo Hf Hlo Hn1).
    pose proof (fkey_bound T hi Hf Hhi Hn2).
    set (x := draws r (drawn r)).
    pose proof (Z.mod_pos_bound x (fkey T hi - fkey T lo + 1) ltac:(lia)).
    destruct (funkey_spec T (fkey T lo + x mod (fkey T hi - fkey T lo + 1)) Hf)
      as (Hk' & Hn' & Hr'); [lia |].
    unfold num_le. rewrite Hf, Hn1, Hn2, Hn', Hk'. simpl.
    repeat split; try lia; apply Z.leb_le; lia.
  - unfold num_le in *. rewrite Hf in *. apply Z.leb_le in Hle.
    set (x := draws r (drawn r)).
    pose proof (Z.mod_pos_bound x (hi - lo + 1) ltac:(lia)).
    repeat split; try (apply Z.leb_le; lia).
    unfold representable in *. rewrite Hf in *.
    destruct (is_signed T); lia.
Qed.

(** [between] in generate mode: the draw is returned and logged. *)
Lemma between_generate T lo hi id g :
  runmode g = generate ->
  between T lo hi id g =
    Ok (fst (uniform_random T lo hi (rgen g)))
       (set_olog (olog g ++ record T (fst (uniform_random T lo hi (rgen g))) id)
          (set_rgen (snd (uniform_random T lo hi (rgen g))) g)).
Proof.
  intros Hm. unfold between, bind. rewrite Hm.
  destruct (uniform_random T lo hi (rgen g)) as [v r'] eqn:E. simpl.
  unfold output, record. simpl. by rewrite <- !app_assoc.
Qed.

(** Whenever [between] returns, in either mode, the output log has grown by
    exactly the record of the returned value and the supplied id, and
    nothing else of the engine but its input position or its random
    generator has changed. *)
Lemma between_returns T lo hi id g v g' :
  between T lo hi id g = Ok v g' ->
  olog g' = olog g ++ record T v id /\
  runmode g' = runmode g /\ storage g' = storage g /\ heap g' = heap g.
Proof.
  unfold between, bind. intros H.
  destruct (runmode g) eqn:Hm.
  - destruct (uniform_random T lo hi (rgen g)) as [x r']. simpl in H.
    injection H as <- <-. simpl. unfold record. by rewrite <- !app_assoc.
  - unfold input in H.
    destruct (stream_get (ilog g)) as [c s1].
    destruct (Byte.eqb _ _); [| done].
    destruct (stream_read (sizeof T) s1) as [bs s2].
    destruct (stream_read (sizeof T_size_t) s2) as [ids s3]. simpl in H.
    injection H as <- <-. simpl. unfold record. by rewrite <- !app_assoc.
Qed.

(** [input] on a stream that starts with a whole record of T's tag: the
    stored value is read, the stored id is skipped. *)
Lemma input_record T v sid rest g :
  ilog g = {| unread := record T v sid ++ rest; failed := false |} ->
  input T g = Ok (decode T (encode T v))
                 (set_ilog {| unread := rest; failed := false |} g).
Proof.
  intros Hi. unfold input. rewrite Hi. unfold stream_get, record. simpl.
  assert (Byte.eqb (typetag T) (typetag T) = true) as ->
    by (by apply Byte.byte_dec_lb).
  unfold stream_read. simpl.
  rewrite <- !app_assoc.
  rewrite take_app_length' by (by rewrite encode_length).
  rewrite drop_app_length' by (by rewrite encode_length).
  rewrite (drop_ge (encode T (indeterminate T)))
    by (by rewrite !encode_length).
  rewrite app_nil_r.
  rewrite drop_app_length' by (by rewrite encode_length).
  rewrite bool_decide_eq_false_2
    by (rewrite length_app, encode_length; lia).
  rewrite bool_decide_eq_false_2
    by (rewrite length_app, encode_length; simpl; lia).
  done.
Qed.

Lemma between_replay_record T lo hi id v sid rest g :
  runmode g = replay ->
  ilog g = {| unread := record T v sid ++ rest; failed := false |} ->
  between T lo hi id g =
    Ok (decode T (encode T v))
       (set_olog (olog g ++ record T (decode T (encode T v)) id)
          (set_ilog {| unread := rest; failed := false |} g)).
Proof.
  intros Hm Hi. unfold between, bind. rewrite Hm.
  rewrite (input_record T v sid rest g Hi). simpl.
  unfold output, record. simpl. by rewrite <- !app_assoc.
Qed.

Lemma log_of_types cs cs' vals ids :
  map c_type cs' = map c_type cs ->
  log_of P cs' vals ids = log_of P cs vals ids.
Proof.
  revert cs' vals ids.
  induction cs as [|c cs IH]; intros [|c' cs'] vals ids H; try done.
  injection H as Hc H.
  destruct vals, ids; simpl; try done.
  by rewrite Hc, (IH cs' vals ids H).
Qed.

Lemma stored_types cs cs' vals :
  map c_type cs' = map c_type cs -> stored cs' vals = stored cs vals.
Proof.
  revert cs' vals.
  induction cs as [|c cs IH]; intros [|c' cs'] [|v vs] H; try done.
  injection H as Hc H. unfold stored in *. simpl.
  by rewrite Hc, (IH cs' vs H).
Qed.

Lemma stored_representable cs vs :
  Forall2 (fun c v => representable (c_type c) v) cs vs -> stored cs vs = vs.
Proof.
  induction 1 as [|c v cs vs Hr _ IH]; [done |].
  unfold stored in *. simpl. by rewrite decode_encode, IH.
Qed.

(** A session in generate mode returns, and its log holds one record per
    call, in call order. *)
Lemma session_generate cs : forall g,
  runmode g = generate -> Forall call_ok cs ->
  exists vs g', session cs g = Ok vs g' /\
    olog g' = olog g ++ log_of P cs vs (map c_id cs) /\
    Forall2 (fun c v => representable (c_type c) v) cs vs /\
    Forall2 (fun c v => num_le (c_type c) (c_lo c) v = true /\
                        num_le (c_type c) v (c_hi c) = true) cs vs.
Proof.
  induction cs as [|c cs IH]; intros g Hm Hok.
  - exists [], g. simpl. by rewrite app_nil_r.
  - inversion Hok as [|? ? Hc Hcs]; subst.
    simpl. unfold bind. rewrite between_generate by done.
    set (v := fst (uniform_random _ _ _ _)).
    set (g1 := set_olog _ _).
    destruct (IH g1) as (vs & g' & Hs & Hl & Hr & Hb); [done | done |].
    rewrite Hs. exists (v :: vs), g'. simpl.
    destruct (uniform_random_range (c_type c) (c_lo c) (c_hi c) (rgen g))
      as (H1 & H2 & H3); [by destruct c |].
    split; [done |]. split; [| by split; constructor].
    rewrite Hl. subst g1. simpl. by rewrite <- app_assoc.
Qed.

(** A session replaying a log that holds one record per call: the stored
    values come back in order, whatever ids are stored with them. *)
Lemma session_replay cs : forall vals ids rest g,
  runmode g = replay ->
  length vals = length cs -> length ids = length cs ->
  ilog g = {| unread := log_of P cs vals ids ++ rest; failed := false |} ->
  session cs g =
    Ok (stored cs vals)
       (set_olog (olog g ++ log_of P cs (stored cs vals) (map c_id cs))
          (set_ilog {| unread := rest; failed := false |} g)).
Proof.
  induction cs as [|c cs IH]; intros vals ids rest g Hm Hv Hi Hl.
  - destruct vals; [| done]. simpl in *. unfold ret. f_equal.
    destruct g; unfold set_olog, set_ilog; simpl in *.
    by rewrite app_nil_r, Hl.
  - destruct vals as [|v vals]; [done |]. destruct ids as [|i ids]; [done |].
    simpl in Hl. rewrite <- app_assoc in Hl.
    simpl. unfold bind.
    rewrite (between_replay_record _ _ _ _ v i _ g Hm Hl).
    rewrite (IH vals ids rest); simpl; auto.
    unfold stored, set_olog, set_ilog. simpl. by rewrite <- app_assoc.
Qed.

End Codec.

(** C1. The values a generate-mode session of [between] calls returns are
    returned again, in the same order, by a replay-mode engine that reads
    what the session wrote to its output log and makes calls of the same
    types in the same order; with the same ids the replay also writes the
    same records.  A fresh pair of engines is the case of empty logs. *)
Theorem generate_replay_round_trip {P : program} cs cs' g :
  Forall call_ok cs -> map c_type cs' = map c_type cs ->
  runmode g = generate ->
  exists vs g1 written,
    session cs g = Ok vs g1 /\ olog g1 = olog g ++ written /\
    forall gr rest,
      runmode gr = replay ->
      ilog gr = {| unread := written ++ rest; failed := false |} ->
      exists gr',
        session cs' gr = Ok vs gr' /\
        ilog gr' = {| unread := rest; failed := false |} /\
        (map c_id cs' = map c_id cs -> olog gr' = olog gr ++ written).
Proof.
  intros Hok Hty Hm.
  destruct (session_generate cs g) as (vs & g1 & Hs & Hl & Hr & _);
    [done | done |].
  exists vs, g1, (log_of P cs vs (map c_id cs)).
  split; [done |]. split; [done |]. intros gr rest Hmr Hi.
  assert (Hlen : length vs = length cs) by (symmetry; by eapply Forall2_length).
  assert (Hlen' : length cs' = length cs)
    by (rewrite <- (length_map c_type), Hty; apply length_map).
  assert (Hst : stored cs' vs = vs)
    by (by rewrite (stored_types cs cs'), stored_representable).
  rewrite <- (log_of_types cs cs') in Hi by done.
  rewrite (session_replay cs' vs (map c_id cs) rest gr Hmr); try done.
  - rewrite Hst. eexists. split; [done |]. split; [done |].
    intros Hid. simpl. by rewrite Hid, (log_of_types cs cs').
  - lia.
  - rewrite length_map. lia.
Qed.


(** C5. In replay mode, when the tag of the next stored record is not the
    tag of the type being read, [between] fails its assertion and nothing
    that follows the call is run. *)
Theorem replay_tag_mismatch_aborts {P : program} T lo hi id g b rest :
  runmode g = replay ->
  ilog g = {| unread := b :: rest; failed := false |} ->
  b <> typetag T ->
  input T g = Stop assertion_failed /\
  between T lo hi id g = Stop assertion_failed /\
  forall (A : Type) (k : Z -> M A),
    (let* v := between T lo hi id in k v) g = Stop assertion_failed.
Proof.
  intros Hm Hi Hb.
  assert (H : input T g = Stop assertion_failed).
  { unfold input. rewrite Hi. simpl.
    destruct (Byte.eqb b (typetag T)) eqn:E; [| done].
    by apply Byte.byte_dec_bl in E. }
  assert (H' : between T lo hi id g = Stop assertion_failed)
    by (unfold between, bind; by rewrite Hm, H).
  repeat split; try done.
  intros A k. unfold bind at 1. by rewrite H'.
Qed.

(** C10. A replay never looks at the ids stored in its input: a log whose
    records carry the tags of the calls and arbitrary ids is replayed
    exactly as the log that stores the calls' own ids, and the replay
    returns the stored values after consuming every record. *)
Theorem replay_ignores_stored_ids {P : program} cs vals ids r :
  length vals = length cs -> length ids = length cs ->
  session cs (gen_replay r (log_of P cs vals ids)) =
  session cs (gen_replay r (log_of P cs vals (map c_id cs))) /\
  exists g', session cs (gen_replay r (log_of P cs vals ids))
               = Ok (stored cs vals) g' /\
             ilog g' = {| unread := []; failed := false |} /\
             olog g' = log_of P cs (stored cs vals) (map c_id cs).
Proof.
  intros Hv Hi.
  rewrite (session_replay cs vals ids []); simpl; try done;
    [| by rewrite app_nil_r].
  rewrite (session_replay cs vals (map c_id cs) []); simpl; try done;
    [| by rewrite length_map | by rewrite app_nil_r].
  split; [done |]. by eexists.
Qed.

(** ** The visibility predicate *)

Lemma visible_not_within_anonymous :
  (forall ctx, visible_from ctx = true -> within_anonymous ctx = false) /\
  (forall C, visible_record C = true -> record_within_anonymous C = false).
Proof.
  assert (H : forall ctx, visible_from ctx = true -> within_anonymous ctx = false).
  { induction ctx using DeclContext_mut
      with (P0 := fun C => visible_record C = true ->
                           record_within_anonymous C = false);
      simpl; intros Hv; try done.
    - destruct isAnonymousNamespace; [done | simpl; auto].
    - auto.
    - destruct getIdentifier; [| done].
      destruct getDescribedClassTemplate as [[]|]; try done; auto;
        destruct access; try done; auto. }
  split; [exact H |].
  intros C Hv. apply (H (RecordContext C) Hv).
Qed.

(** C9. [globally_visible] answers true only for a class that has a name,
    whose access (its template's, when it describes one) is neither private
    nor protected, and none of whose enclosing scopes is an anonymous
    namespace; a named, unrestricted class nested in a class that an
    anonymous namespace encloses is not globally visible. *)
Theorem globally_visible_only_if :
  (forall C, globally_visible (Some C) = true ->
     identifier_of C <> None /\
     getAccess C <> AS_private /\ getAccess C <> AS_protected /\
     within_anonymous (parent_of C) = false) /\
  (forall name acc tmpl outer_name outer_acc outer_tmpl ns_parent,
     globally_visible
       (Some (Class_ (Some name) acc tmpl
          (RecordContext (Class_ outer_name outer_acc outer_tmpl
             (NamespaceDecl true ns_parent))))) = false) /\
  globally_visible None = false.
Proof.
  split; [| split; [| reflexivity]].
  - intros [id acc tmpl parent] Hv. simpl in Hv.
    destruct id as [s|]; [| done].
    assert (Hp : visible_from parent = true)
      by (destruct tmpl as [[]|]; try done; destruct acc; done).
    repeat split; try done.
    + intros E. simpl in E. rewrite E in Hv.
      destruct tmpl as [[]|]; simpl in *; try done.
    + intros E. simpl in E. rewrite E in Hv.
      destruct tmpl as [[]|]; simpl in *; try done.
    + simpl. by apply visible_not_within_anonymous.
  - intros. simpl.
    destruct tmpl as [[]|]; try done; destruct acc; try done;
      destruct outer_name; try done;
      destruct outer_tmpl as [[]|]; try done; destruct outer_acc; done.
Qed.

(** ** How a run changes the engine *)

Section Runs.
Context {P : program}.

Lemma bind_Ok {A B} (m : M A) (k : A -> M B) g b g2 :
  bind m k g = Ok b g2 <-> exists a g1, m g = Ok a g1 /\ k a g1 = Ok b g2.
Proof.
  unfold bind. split.
  - destruct (m g) as [a g1|]; [eauto | done].
  - by intros (a & g1 & -> & H).
Qed.

Lemma evolves_refl n g : evolves n g g.
Proof. repeat split; eauto. Qed.

Lemma evolves_trans n g1 g2 g3 :
  evolves n g1 g2 -> evolves n g2 g3 -> evolves n g1 g3.
Proof.
  intros (Hm1 & Hl1 & Hf1 & Hk1) (Hm2 & Hl2 & Hf2 & Hk2).
  repeat split; [congruence | lia | |].
  - intros a Ha. by rewrite Hf2, Hf1.
  - intros a o Ho. destruct (Hk1 a o Ho) as (o1 & Ho1 & Hk).
    destruct (Hk2 a o1 Ho1) as (o2 & Ho2 & Hk').
    exists o2. split; [done | congruence].
Qed.

Lemma evolves_mono m n g g' : (m <= n)%nat -> evolves n g g' -> evolves m g g'.
Proof.
  intros Hmn (Hm & Hl & Hf & Hk). repeat split; auto.
  intros a Ha. apply Hf. lia.
Qed.

Lemma step_refl g : step g g.
Proof. split; [apply evolves_refl | done]. Qed.

Lemma step_trans g1 g2 g3 : step g1 g2 -> step g2 g3 -> step g1 g3.
Proof.
  intros [He1 Hi1] [He2 Hi2]. split; [| auto].
  eapply evolves_trans; [exact He1 |].
  eapply evolves_mono; [| exact He2]. apply He1.
Qed.

Lemma evolves_same n g g' :
  runmode g' = runmode g -> heap g' = heap g -> evolves n g g'.
Proof.
  intros Hm Hh. unfold evolves. rewrite Hm, Hh. repeat split; eauto.
Qed.

(** A change of the logs or of the random generator only. *)
Lemma step_same g g' :
  runmode g' = runmode g -> storage g' = storage g -> heap g' = heap g ->
  step g g'.
Proof.
  intros Hm Hs Hh. split.
  - by apply evolves_same.
  - unfold inv, pools_exact, calls_bounded, pool. by rewrite Hm, Hs, Hh.
Qed.

Lemma between_step T lo hi id g v g' :
  between T lo hi id g = Ok v g' -> step g g'.
Proof.
  intros H. apply between_returns in H as (_ & Hm & Hs & Hh).
  by apply step_same.
Qed.

(** In generate mode an integral draw lies between its bounds. *)
Lemma between_generate_bounds T lo hi id g v g' :
  runmode g = generate -> is_float T = false -> lo <= hi ->
  between T lo hi id g = Ok v g' -> lo <= v <= hi.
Proof.
  intros Hm Hf Hle H. rewrite between_generate in H by done.
  injection H as <- _. unfold uniform_random, next_draw. rewrite Hf. simpl.
  pose proof (Z.mod_pos_bound (draws (rgen g) (drawn (rgen g))) (hi - lo + 1)
                ltac:(lia)). lia.
Qed.

Lemma load_Ok p g o g' :
  load p g = Ok o g' -> g' = g /\ exists a, p = Some a /\ heap g !! a = Some o.
Proof.
  unfold load. destruct p as [a|]; [| done].
  destruct (heap g !! a) eqn:E; [| done].
  intros [= <- <-]. eauto.
Qed.

(** [new]: the object sits at the first free address. *)
Lemma new_Ok o g a g' :
  new o g = Ok a g' ->
  a = length (heap g) /\ heap g' !! a = Some o /\
  evolves (length (heap g)) g g' /\
  (calls_of o = 0%nat -> inv g -> inv g').
Proof.
  unfold new. intros [= <- <-]. simpl.
  split; [done |]. split; [by rewrite lookup_app_r, Nat.sub_diag |].
  split.
  - repeat split; simpl.
    + rewrite length_app. lia.
    + intros a Ha. by rewrite lookup_app_l.
    + intros a o' Ho. exists o'. split; [| done].
      rewrite lookup_app_l; [done | by eapply lookup_lt_Some].
  - intros Hc [Hp Hb]. split.
    + intros t a Ha. destruct (Hp t a Ha) as (o' & Ho' & Hk).
      exists o'. split; [| done]. simpl.
      rewrite lookup_app_l; [done | by eapply lookup_lt_Some].
    + simpl. intros Hm Hs a o' Ho. simpl in Ho.
      destruct (decide (a < length (heap g))%nat) as [Hlt|Hge].
      * rewrite lookup_app_l in Ho by done. by eapply (Hb Hm Hs).
      * rewrite lookup_app_r in Ho by lia.
        destruct (a - length (heap g))%nat; [| done].
        injection Ho as <-. rewrite Hc. simpl. done.
Qed.

(** [assign]: an object is replaced by one of the same type. *)
Lemma assign_Ok a o o' g g' :
  heap g !! a = Some o -> kind o' = kind o ->
  (runmode g = generate -> 0 <= spinlimit ->
   Z.of_nat (calls_of o') <= spinlimit) ->
  assign a o' g = Ok tt g' ->
  heap g' !! a = Some o' /\ evolves a g g' /\ (inv g -> inv g').
Proof.
  intros Ho Hk Hc. unfold assign. intros [= <-]. simpl.
  pose proof (lookup_lt_Some _ _ _ Ho) as Hlt.
  split; [by rewrite list_lookup_insert_eq |]. split.
  - repeat split; simpl.
    + by rewrite length_insert.
    + intros b Hb. rewrite list_lookup_insert_ne; [done | lia].
    + intros b ob Hob. destruct (decide (a = b)) as [<-|Hne].
      * exists o'. rewrite list_lookup_insert_eq by done.
        split; [done | congruence].
      * exists ob. by rewrite list_lookup_insert_ne.
  - intros [Hp Hb]. split.
    + intros t b Hin. destruct (Hp t b Hin) as (ob & Hob & Hkb). simpl.
      destruct (decide (a = b)) as [<-|Hne].
      * exists o'. rewrite list_lookup_insert_eq by done.
        split; [done | congruence].
      * exists ob. by rewrite list_lookup_insert_ne.
    + simpl. intros Hm Hs b ob Hob. simpl in Hob.
      destruct (decide (a = b)) as [<-|Hne].
      * rewrite list_lookup_insert_eq in Hob by done.
        injection Hob as <-. auto.
      * rewrite list_lookup_insert_ne in Hob by done. by eapply (Hb Hm Hs).
Qed.

Lemma pool_insert g t l t' :
  pool (set_storage (<[t := l]> (storage g)) g) t' =
  if decide (t = t') then l else pool g t'.
Proof.
  unfold pool. simpl. rewrite lookup_insert.
  by destruct (decide (t = t')).
Qed.

(** [store]: a handle enters the pool of its object's type. *)
Lemma store_Ok t a g p g' o :
  heap g !! a = Some o -> kind o = t ->
  store t a g = Ok p g' -> p = Some a /\ step g g'.
Proof.
  intros Ho Hk. unfold store. intros [= <- <-]. split; [done |]. split.
  - by apply evolves_same.
  - intros [Hp Hb]. split; [| exact Hb].
    intros t' b. rewrite pool_insert. destruct (decide (t = t')) as [<-|Hne].
    + intros [Hin | ->%list_elem_of_singleton]%elem_of_app; [by apply Hp |].
      eauto.
    + apply Hp.
Qed.

Lemma oldies_of_Ok t g l g' :
  oldies_of t g = Ok l g' -> l = pool g t /\ step g g'.
Proof.
  unfold oldies_of. intros [= <- <-]. split; [done |]. split.
  - by apply evolves_same.
  - intros [Hp Hb]. split; [| exact Hb].
    intros t' b. rewrite pool_insert. destruct (decide (t = t')) as [<-|Hne];
      apply Hp.
Qed.

(** Harness code changes the engine through [between] and [make] only. *)
Lemma run_step {A} mk (p : prog A) :
  good_make mk -> forall g a g', run mk p g = Ok a g' -> step g g'.
Proof.
  intros Hmk. induction p as [a|T lo hi id k IH|t id allow k IH|q k IH|f];
    intros g x g' H; simpl in H.
  - injection H as <- <-. apply step_refl.
  - apply bind_Ok in H as (v & g1 & Hb & H).
    eapply step_trans; [by eapply between_step | by eapply IH].
  - apply bind_Ok in H as (h & g1 & Hb & H).
    eapply step_trans; [by eapply Hmk | by eapply IH].
  - apply bind_Ok in H as (o & g1 & Hb & H).
    apply load_Ok in Hb as [-> _]. by eapply IH.
  - done.
Qed.

(** The roulette loop: [n] more calls are recorded on [obj], and nothing
    below [obj] changes. *)
Lemma spin_spec mk h obj id :
  good_make mk -> forall n g g' c d calls,
  heap g !! obj = Some (OClass c d calls) ->
  (runmode g = generate -> 0 <= spinlimit ->
   Z.of_nat (length calls + n) <= spinlimit) ->
  spin mk h obj id n g = Ok tt g' ->
  evolves obj g g' /\ (inv g -> inv g') /\
  exists calls', heap g' !! obj = Some (OClass c d calls') /\
                 length calls' = (length calls + n)%nat.
Proof.
  intros Hmk. induction n as [|n IH]; intros g g' c d calls Ho Hb H; simpl in H.
  - injection H as <-. split; [apply evolves_refl |]. split; [done |].
    exists calls. split; [done | lia].
  - apply bind_Ok in H as (k & g1 & Hk & H).
    destruct (mroulette h !! Z.to_nat k) as [m|]; [| done].
    apply bind_Ok in H as ([] & g2 & Hi & H).
    apply bind_Ok in H as ([] & g3 & Hr & H).
    pose proof (between_returns _ _ _ _ _ _ _ Hk) as (_ & Hm1 & _ & Hh1).
    apply between_step in Hk as [He1 Hi1].
    unfold invoked in Hi. apply bind_Ok in Hi as (o & g1' & Hl & Hi).
    apply load_Ok in Hl as [-> (? & [= <-] & Hl)].
    rewrite Hh1, Ho in Hl. injection Hl as <-.
    eapply assign_Ok in Hi as (Ho2 & He2 & Hi2);
      [| by rewrite Hh1 | done |].
    2:{ rewrite Hm1. intros Hm Hs. specialize (Hb Hm Hs). simpl.
        rewrite length_app. simpl. lia. }
    pose proof (run_step mk _ Hmk _ _ _ Hr) as [He3 Hi3].
    assert (Hlt : (obj < length (heap g2))%nat) by (by eapply lookup_lt_Some).
    assert (Ho3 : heap g3 !! obj = Some (OClass c d (calls ++ [k]))).
    { destruct He3 as (_ & _ & Hf & _). by rewrite Hf. }
    destruct (IH g3 g' c d (calls ++ [k]) Ho3) as (He4 & Hi4 & calls' & Ho4 & Hlen);
      [| done |].
    { destruct He2 as (Hm2 & _), He3 as (Hm3 & _).
      rewrite Hm3, Hm2, Hm1. intros Hm Hs. specialize (Hb Hm Hs).
      rewrite length_app. simpl. lia. }
    assert (Hlt0 : (obj < length (heap g))%nat) by (by eapply lookup_lt_Some).
    split; [| split; [tauto |]].
    + eapply evolves_trans; [eapply evolves_mono; [| exact He1]; lia |].
      eapply evolves_trans; [exact He2 |].
      eapply evolves_trans; [eapply evolves_mono; [| exact He3]; lia |].
      exact He4.
    + exists calls'. split; [done |]. rewrite Hlen, length_app. simpl. lia.
Qed.

(** The class overload. *)
Lemma makenew_class_step mk c id allow :
  good_make mk -> forall g p g',
  makenew_class mk c id allow g = Ok p g' -> step g g'.
Proof.
  intros Hmk g p g' H. unfold makenew_class in H.
  apply bind_Ok in H as (sub & g0 & Hsub & H).
  assert (Hs0 : step g g0).
  { destruct (negb (subcount (harness c) =? 0) && allow).
    - apply bind_Ok in Hsub as (x & g0' & Hx & Hsub).
      injection Hsub as _ <-. by eapply between_step.
    - injection Hsub as _ <-. apply step_refl. }
  eapply step_trans; [exact Hs0 |]. clear Hsub Hs0 g. rename g0 into g.
  destruct sub.
  - apply bind_Ok in H as (i & g1 & Hi & H).
    destruct (submakers (harness c) !! Z.to_nat i) as [f|]; [| done].
    eapply step_trans; [by eapply between_step | by eapply run_step].
  - apply bind_Ok in H as (data & g1 & Hc & H).
    apply bind_Ok in H as (obj & g2 & Hn & H).
    apply bind_Ok in H as ([] & g3 & Hl & H).
    pose proof (run_step mk _ Hmk _ _ _ Hc) as Hs1.
    apply new_Ok in Hn as (-> & Ho2 & He2 & Hi2).
    specialize (Hi2 eq_refl).
    assert (Hloop : evolves (length (heap g1)) g2 g3 /\ (inv g2 -> inv g3) /\
              exists calls, heap g3 !! length (heap g1)
                            = Some (OClass (obj_class (harness c)) data calls)).
    { destruct (negb (mcount (harness c) =? 0)).
      - apply bind_Ok in Hl as (e & g2' & He & Hl).
        pose proof (between_returns _ _ _ _ _ _ _ He) as (_ & Hm & _ & Hh).
        pose proof (between_step _ _ _ _ _ _ _ He) as [He' Hi'].
        eapply (spin_spec mk _ _ _ Hmk) in Hl as (He3 & Hi3 & calls & Ho3 & _).
        + split; [| split; [tauto | eauto]].
          eapply evolves_trans; [| exact He3].
          eapply evolves_mono; [| exact He']. destruct He2 as (_ & ? & _). lia.
        + by rewrite Hh.
        + rewrite Hm. intros Hg Hs. destruct He2 as (Hm2 & _).
          eapply between_generate_bounds in He; [| congruence | done | done].
          simpl. lia.
      - injection Hl as <-. split; [apply evolves_refl |]. split; eauto. }
    destruct Hloop as (He3 & Hi3 & calls & Ho3).
    eapply store_Ok in H as [-> Hs4]; [| exact Ho3 | done].
    eapply step_trans; [exact Hs1 |].
    eapply step_trans; [| exact Hs4].
    split; [| tauto].
    eapply evolves_trans; [exact He2 | exact He3].
Qed.

Lemma write_char_Ok buf i v g g' :
  write_char buf i v g = Ok tt g' ->
  evolves buf g g' /\ (inv g -> inv g') /\
  exists cells, heap g !! buf = Some (OArr cells) /\
    heap g' !! buf = Some (OArr (<[Z.to_nat i := Some v]> cells)) /\
    0 <= i < Z.of_nat (length cells).
Proof.
  unfold write_char. intros H.
  apply bind_Ok in H as (o & g1 & Hl & H).
  apply load_Ok in Hl as [-> (? & [= <-] & Hl)].
  destruct o as [| |cells|]; try done.
  destruct (Z.leb_spec 0 i); [| done].
  destruct (Z.ltb_spec i (Z.of_nat (length cells))); [| done]. simpl in H.
  eapply assign_Ok in H as (Ho & He & Hi); [| exact Hl | done | auto].
  split; [done |]. split; [done |]. exists cells. repeat split; auto.
Qed.

Lemma fill_chars_step buf id : forall n i g g',
  fill_chars buf id n i g = Ok tt g' -> evolves buf g g' /\ (inv g -> inv g').
Proof.
  induction n as [|n IH]; intros i g g' H; simpl in H.
  - injection H as <-. split; [apply evolves_refl | done].
  - apply bind_Ok in H as (c & g1 & Hc & H).
    apply bind_Ok in H as ([] & g2 & Hw & H).
    pose proof (between_returns _ _ _ _ _ _ _ Hc) as (_ & _ & _ & Hh).
    apply between_step in Hc as [He1 Hi1].
    apply write_char_Ok in Hw as (He2 & Hi2 & cells & Hb & _).
    apply IH in H as [He3 Hi3].
    split; [| tauto].
    eapply evolves_trans; [eapply evolves_mono; [| exact He1] |].
    + apply Nat.lt_le_incl. rewrite <- Hh. by eapply lookup_lt_Some.
    + by eapply evolves_trans.
Qed.

(** The char* overload. *)
Lemma makenew_char_ptr_step mk id :
  good_make mk -> forall g p g',
  makenew_char_ptr mk id g = Ok p g' -> step g g'.
Proof.
  intros Hmk g p g' H. unfold makenew_char_ptr in H.
  apply bind_Ok in H as (r & g1 & Hr & H).
  apply bind_Ok in H as (q & g2 & Hq & H).
  apply bind_Ok in H as (o & g2' & Hl & H).
  apply load_Ok in Hl as [-> _].
  destruct o as [T sz| | |]; try done.
  apply bind_Ok in H as (buf & g3 & Hb & H).
  apply bind_Ok in H as ([] & g4 & Ha & H).
  apply bind_Ok in H as ([] & g5 & Hw & H).
  apply bind_Ok in H as ([] & g6 & Hf & H).
  injection H as _ <-.
  apply new_Ok in Hr as (-> & Ho1 & He1 & Hi1). specialize (Hi1 eq_refl).
  apply Hmk in Hq as [He2 Hi2].
  unfold new_chars in Hb. destruct (_ <? 0); [done |].
  apply new_Ok in Hb as (-> & Ho3 & He3 & Hi3). specialize (Hi3 eq_refl).
  assert (H1 : (length (heap g) < length (heap g1))%nat)
    by (by eapply lookup_lt_Some).
  assert (H2 : (length (heap g1) <= length (heap g2))%nat) by apply He2.
  assert (Hr3 : heap g3 !! length (heap g) = Some (OPtr (TNum T_char) None)).
  { destruct He2 as (_ & _ & Hf2 & _), He3 as (_ & _ & Hf3 & _).
    rewrite Hf3, Hf2; [done | lia | lia]. }
  eapply assign_Ok in Ha as (_ & He4 & Hi4); [| exact Hr3 | done | auto].
  apply write_char_Ok in Hw as (He5 & Hi5 & _).
  apply fill_chars_step in Hf as (He6 & Hi6).
  split; [| tauto].
  eapply evolves_trans; [exact He1 |].
  eapply evolves_trans; [eapply evolves_mono; [| exact He2]; lia |].
  eapply evolves_trans; [eapply evolves_mono; [| exact He3]; lia |].
  eapply evolves_trans; [exact He4 |].
  eapply evolves_trans; eapply evolves_mono; [| exact He5 | | exact He6]; lia.
Qed.

(** Every overload of [makenew]. *)
Lemma makenew_step mk t id allow :
  good_make mk -> forall g p g', makenew mk t id allow g = Ok p g' -> step g g'.
Proof.
  intros Hmk g p g' H. unfold makenew in H. destruct t as [T|c|pointee| |].
  - apply bind_Ok in H as (v & g1 & Hv & H).
    apply bind_Ok in H as (a & g2 & Ha & H).
    apply between_step in Hv.
    apply new_Ok in Ha as (-> & Ho & He & Hi). specialize (Hi eq_refl).
    eapply store_Ok in H as [_ Hs]; [| exact Ho | done].
    eapply step_trans; [exact Hv |]. eapply step_trans; [| exact Hs]. by split.
  - by eapply makenew_class_step.
  - destruct (is_char_ptr (TPtr pointee)).
    + by eapply makenew_char_ptr_step.
    + apply bind_Ok in H as (q & g1 & Hq & H).
      apply bind_Ok in H as (a & g2 & Ha & H).
      apply Hmk in Hq.
      apply new_Ok in Ha as (-> & Ho & He & Hi). specialize (Hi eq_refl).
      eapply store_Ok in H as [_ Hs]; [| exact Ho | done].
      eapply step_trans; [exact Hq |]. eapply step_trans; [| exact Hs].
      by split.
  - apply bind_Ok in H as (n & g1 & Hn & H).
    apply bind_Ok in H as (a & g2 & Ha & H).
    apply between_step in Hn.
    unfold new_chars in Ha. destruct (n <? 0); [done |].
    apply new_Ok in Ha as (-> & Ho & He & Hi). specialize (Hi eq_refl).
    eapply store_Ok in H as [_ Hs]; [| exact Ho | done].
    eapply step_trans; [exact Hn |]. eapply step_trans; [| exact Hs]. by split.
  - injection H as _ <-. apply step_refl.
Qed.

(** [make], whatever the recursion budget. *)
Lemma make_step fuel : good_make (make fuel).
Proof.
  induction fuel as [|f IH]; intros t id allow g p g' H; simpl in H; [done |].
  apply bind_Ok in H as (oldies & g1 & Ho & H).
  apply oldies_of_Ok in Ho as [-> Hs1].
  eapply step_trans; [exact Hs1 |].
  destruct (negb (bool_decide (pool g t = [])) && reuse).
  - apply bind_Ok in H as (i & g2 & Hi & H).
    destruct (pool g t !! Z.to_nat i); [| done].
    injection H as _ <-. by eapply between_step.
  - by eapply makenew_step.
Qed.

Lemma inv_fresh (g : gen) : storage g = ∅ -> heap g = [] -> inv g.
Proof.
  intros Hs Hh. split.
  - intros t a. unfold pool. rewrite Hs, lookup_empty. simpl.
    by intros ?%elem_of_nil.
  - intros _ _ a o. by rewrite Hh.
Qed.

(** The invariant holds in every state the engine goes through. *)
Lemma reachable_inv g : reachable g -> inv g.
Proof.
  induction 1 as [r|r input|g T lo hi id v g' _ IH H|
                  g fuel t id allow p g' _ IH H|g fuel code g' _ IH H].
  - by apply inv_fresh.
  - by apply inv_fresh.
  - by apply (between_step _ _ _ _ _ _ _ H).
  - by apply (make_step _ _ _ _ _ _ _ H).
  - by apply (run_step _ _ (make_step fuel) _ _ _ H).
Qed.

End Runs.

(** C3. In every state the engine goes through, each handle of the pool of
    a type T points to an object whose type is exactly T, hence never to an
    instance of a strict subtype of T, whatever the inheritance relation of
    the program; in particular an instance of another class that
    [make<T>(id, or_subclass)] hands out is not in T's pool. *)
Theorem pools_never_hold_subtypes {P : program} g :
  reachable g ->
  pools_exact g /\
  (forall derives t a o d,
     a ∈ pool g t -> heap g !! a = Some o -> dyn_class o = Some d ->
     ~ strict_subtype derives d t) /\
  (forall fuel c id a g' o d,
     make fuel (TClass c) id true g = Ok (Some a) g' ->
     heap g' !! a = Some o -> dyn_class o = Some d -> d <> c ->
     a ∉ pool g' (TClass c)).
Proof.
  intros Hr.
  assert (Hex : forall g0 t a o d, reachable g0 ->
            a ∈ pool g0 t -> heap g0 !! a = Some o -> dyn_class o = Some d ->
            t = TClass d).
  { intros g0 t a o d Hr0 Hin Ho Hd.
    destruct (reachable_inv g0 Hr0) as [Hp _].
    destruct (Hp t a Hin) as (o' & Ho' & Hk).
    rewrite Ho in Ho'. injection Ho' as <-.
    destruct o; try done. simpl in *. congruence. }
  split; [apply (reachable_inv g Hr) |]. split.
  - intros derives t a o d Hin Ho Hd (c & -> & Hne & _).
    specialize (Hex g _ _ _ _ Hr Hin Ho Hd). congruence.
  - intros fuel c id a g' o d Hm Ho Hd Hne Hin.
    assert (Hr' : reachable g') by (by eapply reach_make).
    specialize (Hex g' _ _ _ _ Hr' Hin Ho Hd). congruence.
Qed.


(** ** Pointer chains *)

Section Pointers.
Context {P : program}.

Lemma is_char_ptr_chain T n :
  T <> T_char -> is_char_ptr (TPtr (ptr_to n (TNum T))) = false.
Proof. intros HT. destruct n; [| done]. simpl. by destruct T. Qed.

(** Synthesis of an [n]-level pointer to an arithmetic type in generate
    mode: [n + 1] nested calls of [make], one object each. *)
Lemma make_pointer_chain T id allow :
  T <> T_char -> forall n fuel g,
  (n < fuel)%nat -> runmode g = generate ->
  exists v g',
    make fuel (ptr_to n (TNum T)) id allow g
      = Ok (Some (length (heap g) + n)%nat) g' /\
    heap g' = heap g ++ pointer_chain (length (heap g)) T v n /\
    runmode g' = generate.
Proof.
  intros HT. induction n as [|n IH]; intros fuel g Hf Hm;
    (destruct fuel as [|f]; [lia |]).
  - simpl. unfold bind, oldies_of. rewrite andb_false_r.
    unfold makenew, bind.
    rewrite between_generate by done.
    eexists _, _.
    split; [unfold new, store; simpl; by rewrite Nat.add_0_r |].
    by split.

  - change (ptr_to (S n) (TNum T)) with (TPtr (ptr_to n (TNum T))).
    cbn [make]. unfold bind at 1. unfold oldies_of at 1.
    rewrite andb_false_r. unfold makenew.
    rewrite (is_char_ptr_chain T n HT). unfold bind at 1.
    set (g0 := set_storage _ g).
    destruct (IH f g0) as (v & g1 & Hmk & Hh & Hm1); [lia | done |].
    rewrite Hmk. exists v. eexists. split; [| split].
    + unfold bind, new, store. simpl. rewrite Hh. subst g0. simpl.
      rewrite length_app. unfold pointer_chain. simpl.
      rewrite length_map, length_seq.
      do 3 f_equal; lia.
    + simpl. subst g0. simpl.
      unfold pointer_chain. rewrite seq_S, map_app. simpl.
      by rewrite <- app_assoc.
    + done.
Qed.

(** The chain is [n] pointers deep. *)
Lemma ptr_depth_chain h base T v n rest : forall i k,
  (i <= n)%nat -> (i < k)%nat -> base = length h ->
  ptr_depth (h ++ pointer_chain base T v n ++ rest) k (Some (base + i)%nat) = i.
Proof.
  intros i k Hi Hk ->. revert k Hk.
  induction i as [|i IH]; intros k Hk; (destruct k as [|k]; [lia |]); simpl.
  - rewrite lookup_app_r by lia.
    by replace (length h + 0 - length h)%nat with 0%nat by lia.
  - rewrite lookup_app_r by lia.
    replace (length h + S i - length h)%nat with (S i) by lia.
    unfold pointer_chain. simpl.
    rewrite lookup_app_l by (rewrite length_map, length_seq; lia).
    rewrite list_lookup_fmap, lookup_seq_lt by lia. simpl.
    f_equal. apply IH; lia.
Qed.

End Pointers.

(** C4, as the code has it.  The pointer overload of [makenew] keeps no
    depth counter and never reads [depthlimit]: the synthesis of an
    [n]-level pointer to an arithmetic type other than [char] nests [n]
    pointer constructions for every [n], beyond [depthlimit] too, and it
    returns because each nested [make] is for a type one level down. *)
Theorem pointer_synthesis_nests_every_level {P : program} T n fuel id allow g :
  T <> T_char -> (n < fuel)%nat -> runmode g = generate ->
  exists a g',
    make fuel (ptr_to n (TNum T)) id allow g = Ok (Some a) g' /\
    ptr_depth (heap g') (S n) (Some a) = n /\
    length (heap g') = (length (heap g) + S n)%nat.
Proof.
  intros HT Hf Hm.
  destruct (make_pointer_chain T id allow HT n fuel g Hf Hm)
    as (v & g' & Hmk & Hh & _).
  exists (length (heap g) + n)%nat, g'. split; [done |]. split.
  - rewrite Hh, <- (app_nil_r (pointer_chain _ _ _ _)).
    apply ptr_depth_chain; [lia | lia | done].
  - rewrite Hh, length_app. unfold pointer_chain. simpl.
    by rewrite length_map, length_seq.
Qed.

(** ** The text-like overload and the string harness *)

Section Text.
Context {P : program}.

(** The fill loop writes the [n] cells from index [i] on and no other. *)
Lemma fill_chars_cells buf id : forall n i g g' cells,
  0 <= i -> heap g !! buf = Some (OArr cells) ->
  fill_chars buf id n i g = Ok tt g' ->
  exists cells',
    heap g' !! buf = Some (OArr cells') /\
    length cells' = length cells /\
    (forall j, (j < Z.to_nat i \/ Z.to_nat i + n <= j)%nat ->
       cells' !! j = cells !! j) /\
    (forall j, (Z.to_nat i <= j < Z.to_nat i + n)%nat ->
       exists c, cells' !! j = Some (Some c)).
Proof.
  induction n as [|n IH]; intros i g g' cells Hi Hb H; simpl in H.
  - injection H as <-. exists cells. repeat split; auto. intros j Hj. lia.
  - apply bind_Ok in H as (c & g1 & Hc & H).
    apply bind_Ok in H as ([] & g2 & Hw & H).
    apply between_returns in Hc as (_ & _ & _ & Hh).
    apply write_char_Ok in Hw as (_ & _ & cells0 & Hb0 & Hb2 & Hr).
    rewrite Hh, Hb in Hb0. injection Hb0 as <-.
    destruct (IH (i + 1) g2 g' _ ltac:(lia) Hb2 H)
      as (cells' & Hb' & Hlen & Hout & Hin).
    rewrite length_insert in Hlen.
    replace (Z.to_nat (i + 1)) with (S (Z.to_nat i)) in * by lia.
    exists cells'. repeat split; auto.
    + intros j Hj. rewrite Hout by lia.
      apply list_lookup_insert_ne. lia.
    + intros j Hj. destruct (decide (j = Z.to_nat i)) as [->|Hne].
      * exists c. rewrite Hout by lia.
        apply list_lookup_insert_eq. lia.
      * apply Hin. lia.
Qed.

(** [make] of an arithmetic type: one object, holding the value. *)
Lemma make_num_Ok fuel T id allow g p g' :
  make fuel (TNum T) id allow g = Ok p g' ->
  p = Some (length (heap g)) /\ runmode g' = runmode g /\
  exists v, heap g' = heap g ++ [ONum T v].
Proof.
  destruct fuel as [|f]; [done |]. simpl. intros H.
  apply bind_Ok in H as (oldies & g1 & Ho & H).
  unfold oldies_of in Ho. injection Ho as <- <-.
  rewrite andb_false_r in H. unfold makenew in H.
  apply bind_Ok in H as (v & g2 & Hv & H).
  apply bind_Ok in H as (a & g3 & Ha & H).
  apply between_returns in Hv as (_ & Hm & _ & Hh). simpl in Hm, Hh.
  unfold new in Ha. injection Ha as <- <-.
  unfold store in H. injection H as <- <-. simpl.
  rewrite Hh, Hm. eauto.
Qed.

(** The char* overload, whenever it returns: the sampled length [sz] is
    below [SIZE_MAX], the result points to a slot that points to a buffer
    of [sz + 1] cells, the last one the terminator, the others written. *)
Lemma make_char_ptr_Ok fuel id allow g p g' :
  make fuel (TPtr (TNum T_char)) id allow g = Ok p g' ->
  exists r buf sz cells,
    p = Some r /\
    heap g' !! S (length (heap g)) = Some (ONum T_size_t sz) /\
    0 <= sz < 2 ^ 64 - 1 /\
    heap g' !! r = Some (OPtr (TNum T_char) (Some buf)) /\
    heap g' !! buf = Some (OArr cells) /\
    Z.of_nat (length cells) = sz + 1 /\
    cells !! Z.to_nat sz = Some (Some 0) /\
    (forall j, (j < Z.to_nat sz)%nat -> exists c, cells !! j = Some (Some c)).
Proof.
  destruct fuel as [|f]; [done |]. simpl. intros H.
  apply bind_Ok in H as (oldies & g0 & Ho & H).
  unfold oldies_of in Ho. injection Ho as <- <-.
  rewrite andb_false_r in H. unfold makenew in H. simpl in H.
  unfold makenew_char_ptr in H.
  apply bind_Ok in H as (r & g1 & Hr & H).
  apply bind_Ok in H as (q & g2 & Hq & H).
  apply bind_Ok in H as (o & g2' & Hl & H).
  unfold new in Hr. injection Hr as <- <-. simpl in *.
  apply make_num_Ok in Hq as (-> & _ & v & Hh2). simpl in Hh2.
  cbn [heap set_heap set_storage] in Hl.
  rewrite length_app in Hl. cbn [length] in Hl.
  apply load_Ok in Hl as [-> (a & [= <-] & Hl)].
  rewrite Hh2 in Hl.
  rewrite lookup_app_r in Hl by (rewrite length_app; simpl; lia).
  rewrite length_app in Hl. simpl in Hl.
  replace (length (heap g) + 1 - (length (heap g) + 1))%nat with 0%nat
    in Hl by lia.
  injection Hl as <-.
  apply bind_Ok in H as (buf & g3 & Hb & H).
  apply bind_Ok in H as ([] & g4 & Ha & H).
  apply bind_Ok in H as ([] & g5 & Hw & H).
  apply bind_Ok in H as ([] & g6 & Hf & H).
  injection H as <- <-.
  unfold new_chars in Hb. destruct (_ <? 0); [done |].
  unfold new in Hb. injection Hb as <- <-.
  unfold assign in Ha. injection Ha as <-.
  set (n := Z.to_nat (wrap T_size_t (v + 1))) in *.
  set (h4 := <[length (heap g) := _]> _) in *.
  assert (Hlen4 : length h4 = (length (heap g) + 3)%nat).
  { subst h4. rewrite length_insert, length_app, Hh2, length_app, length_app.
    simpl. lia. }
  assert (Hbuf4 : h4 !! length (heap g2) = Some (OArr (replicate n None))).
  { subst h4. rewrite list_lookup_insert_ne
      by (rewrite Hh2, length_app, length_app; simpl; lia).
    by rewrite lookup_app_r, Nat.sub_diag. }
  assert (Hr4 : h4 !! length (heap g)
                = Some (OPtr (TNum T_char) (Some (length (heap g2))))).
  { subst h4. apply list_lookup_insert_eq.
    rewrite length_app, Hh2, length_app, length_app. simpl. lia. }
  assert (Hsz4 : h4 !! S (length (heap g)) = Some (ONum T_ulong v)).
  { subst h4. rewrite list_lookup_insert_ne by lia.
    rewrite lookup_app_l by (rewrite Hh2, length_app, length_app; simpl; lia).
    rewrite Hh2, lookup_app_r by (rewrite length_app; simpl; lia).
    rewrite length_app. simpl.
    by replace (S (length (heap g)) - (length (heap g) + 1))%nat
      with 0%nat by lia. }
  assert (Hne : length (heap g2) <> length (heap g))
    by (rewrite Hh2, length_app, length_app; simpl; lia).
  assert (Hne' : length (heap g2) <> S (length (heap g)))
    by (rewrite Hh2, length_app, length_app; simpl; lia).
  pose proof (write_char_Ok _ _ _ _ _ Hw) as (He5 & _ & cells0 & Hb0 & Hb5 & Hr5).
  simpl in Hb0. rewrite Hbuf4 in Hb0. injection Hb0 as <-.
  rewrite length_replicate in Hr5.
  assert (Hv : 0 <= v < 2 ^ 64 - 1).
  { subst n. unfold wrap in Hr5.
    change (2 ^ bitsof T_size_t) with (2 ^ 64) in Hr5.
    pose proof (Z.mod_pos_bound (v + 1) (2 ^ 64) ltac:(lia)).
    rewrite Z2Nat.id in Hr5 by lia.
    destruct (decide (v + 1 < 2 ^ 64)) as [Hs|Hs]; [lia |].
    exfalso.
    assert ((v + 1) mod 2 ^ 64 = v + 1 - 2 ^ 64 * ((v + 1) / 2 ^ 64))
      by (rewrite Z.mod_eq; lia).
    assert (1 <= (v + 1) / 2 ^ 64) by (apply Z.div_le_lower_bound; lia).
    nia. }
  assert (Hn : n = S (Z.to_nat v)).
  { subst n. unfold wrap. change (2 ^ bitsof T_size_t) with (2 ^ 64).
    rewrite Z.mod_small by lia. lia. }
  destruct (fill_chars_cells _ id (Z.to_nat v) 0 g5 g6 _ ltac:(lia) Hb5 Hf)
    as (cells' & Hb6 & Hlen6 & Hout & Hin).
  pose proof (fill_chars_step _ _ _ _ _ _ Hf) as [He6 _].
  assert (Hkeep : forall a, (a < length (heap g2))%nat ->
            heap g6 !! a = h4 !! a).
  { intros a Ha. destruct He5 as (_ & _ & Hf5 & _), He6 as (_ & _ & Hf6 & _).
    rewrite Hf6, Hf5 by done. done. }
  exists (length (heap g)), (length (heap g2)), v, cells'.
  rewrite Hkeep, Hkeep
    by (rewrite Hh2, length_app, length_app; simpl; lia).
  rewrite length_insert, length_replicate, Hn in Hlen6.
  repeat split; try done; try lia.
  - rewrite Hout by lia.
    apply list_lookup_insert_eq. rewrite length_replicate. lia.
  - intros j Hj. apply Hin. simpl. lia.
Qed.

End Text.

(** The string harness's loop and [back() = 0], for every length the
    string starts with: unless the length is one, one character is drawn
    and replaces the string; the string ends as the terminator alone. *)
Lemma string_loop_result fuel n :
  0 <= n < 2 ^ 64 ->
  pbind (string_loop (S (S fuel)) 0 (replicate (Z.to_nat n) 0)) set_back =
  (if n =? 1 then Ret [0]
   else Between T_char 1 (numeric_max T_char) 4 (fun _ => Ret [0])).
Proof.
  intros Hn. cbn [string_loop]. rewrite length_replicate, Z2Nat.id by lia.
  unfold wrap. change (2 ^ bitsof T_size_t) with (2 ^ 64).
  destruct (Z.eqb_spec n 1) as [->|Hne].
  - reflexivity.
  - assert ((0 <? (n - 1) mod 2 ^ 64) = true) as ->.
    { apply Z.ltb_lt. destruct (decide (n = 0)) as [->|H0]; [done |].
      rewrite Z.mod_small; lia. }
    reflexivity.
Qed.

(** ** Concrete runs *)

Lemma generate_replay_round_trip_witness :
  Forall call_ok scenario_A /\
  exists vs g1 written,
    @session demo_program scenario_A (gen_generate (counting 7)) = Ok vs g1 /\
    olog g1 = olog (gen_generate (counting 7)) ++ written /\
    forall gr rest,
      runmode gr = replay ->
      ilog gr = {| unread := written ++ rest; failed := false |} ->
      exists gr',
        @session demo_program scenario_A gr = Ok vs gr' /\
        ilog gr' = {| unread := rest; failed := false |} /\
        (map c_id scenario_A = map c_id scenario_A ->
         olog gr' = olog gr ++ written).
Proof.
  assert (H : Forall call_ok scenario_A).
  { repeat constructor; vm_compute; (reflexivity || discriminate). }
  split; [exact H |].
  exact (@generate_replay_round_trip demo_program scenario_A scenario_A
           (gen_generate (counting 7)) H eq_refl eq_refl).
Defined.


Lemma replay_tag_mismatch_aborts_witness :
  @input demo_program T_int
    (gen_replay (counting 0) (@record demo_program T_double dbl_1 42))
    = Stop assertion_failed /\
  @between demo_program T_int 0 10 42
    (gen_replay (counting 0) (@record demo_program T_double dbl_1 42))
    = Stop assertion_failed /\
  forall (A : Type) (k : Z -> M A),
    (let* v := @between demo_program T_int 0 10 42 in k v)
      (gen_replay (counting 0) (@record demo_program T_double dbl_1 42))
    = Stop assertion_failed.
Proof.
  eapply (@replay_tag_mismatch_aborts demo_program T_int 0 10 42).
  - reflexivity.
  - reflexivity.
  - vm_compute. discriminate.
Defined.

Lemma replay_ignores_stored_ids_witness :
  @session demo_program scenario_A
    (gen_replay (counting 0) (log_of demo_program scenario_A [1; 2; 3] [7; 8; 9])) =
  @session demo_program scenario_A
    (gen_replay (counting 0)
       (log_of demo_program scenario_A [1; 2; 3] (map c_id scenario_A))) /\
  exists g',
    @session demo_program scenario_A
      (gen_replay (counting 0) (log_of demo_program scenario_A [1; 2; 3] [7; 8; 9]))
      = Ok (stored scenario_A [1; 2; 3]) g' /\
    ilog g' = {| unread := []; failed := false |} /\
    olog g' = log_of demo_program scenario_A (stored scenario_A [1; 2; 3])
                (map c_id scenario_A).
Proof.
  apply (@replay_ignores_stored_ids demo_program scenario_A [1; 2; 3] [7; 8; 9]
           (counting 0)); reflexivity.
Defined.

Lemma globally_visible_only_if_witness :
  globally_visible (Some visible_class) = true /\
  (identifier_of visible_class <> None /\
   getAccess visible_class <> AS_private /\
   getAccess visible_class <> AS_protected /\
   within_anonymous (parent_of visible_class) = false) /\
  globally_visible (Some scenario_D_inner) = false.
Proof.
  split; [reflexivity |]. split.
  - exact (proj1 globally_visible_only_if visible_class eq_refl).
  - exact (proj1 (proj2 globally_visible_only_if)
             "Inner" AS_public None (Some "Outer") AS_none None
             TranslationUnitDecl).
Defined.

Lemma demo_state_reachable : @reachable demo_program2 demo_state.
Proof.
  eapply (@reach_make demo_program2 (gen_generate (counting 2)) 3 (TClass "C")
            1 true (Some 0%nat)).
  - apply reach_generate.
  - vm_compute. reflexivity.
Qed.

Lemma pools_never_hold_subtypes_witness :
  @reachable demo_program2 demo_state /\
  pool demo_state (TClass "C") = [0%nat] /\
  pools_exact demo_state /\
  (forall derives t a o d,
     a ∈ pool demo_state t -> heap demo_state !! a = Some o ->
     dyn_class o = Some d -> ~ strict_subtype derives d t) /\
  (forall fuel c id a g' o d,
     @make demo_program2 fuel (TClass c) id true demo_state = Ok (Some a) g' ->
     heap g' !! a = Some o -> dyn_class o = Some d -> d <> c ->
     a ∉ pool g' (TClass c)).
Proof.
  split; [exact demo_state_reachable |].
  split; [vm_compute; reflexivity |].
  exact (@pools_never_hold_subtypes demo_program2 demo_state
           demo_state_reachable).
Defined.




(** A pointer type of 21 levels: the chain [make] builds is 21 pointers
    deep, with [depthlimit] at 20. *)
Lemma pointer_chain_exceeds_depthlimit :
  exists a g',
    @make demo_program 30 (ptr_to 21 (TNum T_int)) 1 false
      (gen_generate (counting 0)) = Ok (Some a) g' /\
    depthlimit < Z.of_nat (ptr_depth (heap g') 22 (Some a)).
Proof.
  destruct (@make_pointer_chain demo_program T_int 1 false ltac:(discriminate)
              21%nat 30%nat (gen_generate (counting 0)))
    as (v & g' & Hmk & Hh & _); [lia | reflexivity |].
  exists 21%nat, g'. split; [exact Hmk |].
  pose proof (ptr_depth_chain [] 0 T_int v 21 [] 21 22
                ltac:(lia) ltac:(lia) eq_refl) as Hd.
  rewrite app_nil_r in Hd. simpl in Hh. rewrite Hh.
  change (depthlimit <
          Z.of_nat (ptr_depth ([] ++ pointer_chain 0 T_int v 21) 22
                      (Some (0 + 21)%nat))).
  rewrite Hd. reflexivity.
Qed.

Lemma pointer_synthesis_nests_every_level_witness :
  T_int <> T_char /\ (21 < 30)%nat /\
  exists a g',
    @make demo_program 30 (ptr_to 21 (TNum T_int)) 1 false
      (gen_generate (counting 0)) = Ok (Some a) g' /\
    ptr_depth (heap g') 22 (Some a) = 21%nat /\
    length (heap g') = (length (heap (gen_generate (counting 0))) + 22)%nat.
Proof.
  assert (H1 : T_int <> T_char) by discriminate.
  assert (H2 : (21 < 30)%nat) by lia.
  split; [exact H1 |]. split; [exact H2 |].
  exact (@pointer_synthesis_nests_every_level demo_program T_int 21 30 1 false
           (gen_generate (counting 0)) H1 H2 eq_refl).
Defined.

(** C7.  The char* overload returns only when the sampled length [sz] is
    below [SIZE_MAX], and then with a buffer of [sz + 1] bytes, the last
    one the terminator, each of the first [sz] written with a sample.  At the sampled length [SIZE_MAX], drawn in
    generate mode or read in replay mode, [sz + 1] wraps to zero, the
    buffer has no byte, and writing the terminator at index [sz] is out of
    bounds. *)
Theorem char_ptr_length_wraps :
  (forall (P : program) fuel id allow g p g',
     make fuel (TPtr (TNum T_char)) id allow g = Ok p g' ->
     exists r buf sz cells,
       p = Some r /\
       heap g' !! S (length (heap g)) = Some (ONum T_size_t sz) /\
       0 <= sz < 2 ^ 64 - 1 /\
       heap g' !! r = Some (OPtr (TNum T_char) (Some buf)) /\
       heap g' !! buf = Some (OArr cells) /\
       Z.of_nat (length cells) = sz + 1 /\
       cells !! Z.to_nat sz = Some (Some 0) /\
       (forall j, (j < Z.to_nat sz)%nat ->
          exists c, cells !! j = Some (Some c))) /\
  @make demo_program 2 (TPtr (TNum T_char)) 1 false
    (gen_generate (counting (2 ^ 64 - 1))) = Stop undefined_behaviour /\
  @make demo_program 2 (TPtr (TNum T_char)) 1 false
    (gen_replay (counting 0) size_max_log) = Stop undefined_behaviour.
Proof.
  split; [intros P; apply make_char_ptr_Ok |].
  split; vm_compute; reflexivity.
Qed.

(** C8.  [harness<std::string>]: the first character drawn is assigned to
    the string as a whole, which makes it one character long and ends the
    loop, so that for every sampled length the string ends as the
    terminator alone, after one character draw at most.  Replaying the
    sampled length 3: one character record is read, not two, and the
    string has one character, not three. *)
Theorem string_harness_keeps_one_char :
  (forall fuel n, 0 <= n < 2 ^ 64 ->
     pbind (string_loop (S (S fuel)) 0 (replicate (Z.to_nat n) 0)) set_back =
     (if n =? 1 then Ret [0]
      else Between T_char 1 (numeric_max T_char) 4 (fun _ => Ret [0]))) /\
  exists g',
    @make demo_program 3 (TClass "std::string") 1 false
      (gen_replay (counting 0) string_log) = Ok (Some 1%nat) g' /\
    heap g' = [ONum T_size_t 3; OClass "std::string" [0] []] /\
    ilog g' = {| unread := []; failed := false |}.
Proof.
  split; [apply string_loop_result |].
  exists (state_of (@make demo_program 3 (TClass "std::string") 1 false
                      (gen_replay (counting 0) string_log))).
  split; [vm_compute; reflexivity |].
  split; vm_compute; reflexivity.
Qed.

(** ** A run of [make] replays *)

Section Replay.
Context {P : program}.

Lemma mirrors_ret {A} (a : A) : mirrors (ret a).
Proof.
  intros g x g1 Hm [= <- <-]. split; [done |]. exists [].
  split; [by rewrite app_nil_r |].
  intros gr rest Hmr Hh Hs Hi. unfold ret, replayed. f_equal.
  destruct gr; simpl in *; subst. by rewrite app_nil_r.
Qed.

Lemma mirrors_stop {A} f : mirrors (@stop A f).
Proof. by intros g x g1 Hm H. Qed.

Lemma mirrors_bind {A B} (m : M A) (k : A -> M B) :
  mirrors m -> (forall a, mirrors (k a)) -> mirrors (bind m k).
Proof.
  intros Hm Hk g b g2 Hg H.
  apply bind_Ok in H as (a & g1 & H1 & H2).
  destruct (Hm g a g1 Hg H1) as (Hg1 & w1 & Hl1 & Hr1).
  destruct (Hk a g1 b g2 Hg1 H2) as (Hg2 & w2 & Hl2 & Hr2).
  split; [done |]. exists (w1 ++ w2).
  split; [by rewrite Hl2, Hl1, app_assoc |].
  intros gr rest Hmr Hh Hs Hi. unfold bind.
  rewrite <- app_assoc in Hi. rewrite (Hr1 gr (w2 ++ rest) Hmr Hh Hs Hi).
  rewrite (Hr2 (replayed g1 gr w1 (w2 ++ rest)) rest); try done.
  unfold replayed. simpl. by rewrite app_assoc.
Qed.

(** A step that changes the objects or the pools only, in the same way in
    both modes. *)
Lemma mirrors_update {A} (f : gen -> A) (h : gen -> list object)
    (s : gen -> gmap ty (list nat)) :
  (forall g g', heap g' = heap g -> storage g' = storage g ->
     f g' = f g /\ h g' = h g /\ s g' = s g) ->
  mirrors (fun g => Ok (f g) (set_storage (s g) (set_heap (h g) g))).
Proof.
  intros Hf g a g1 Hm [= <- <-]. split; [done |]. exists [].
  split; [simpl; by rewrite app_nil_r |].
  intros gr rest Hmr Hh Hs Hi.
  destruct (Hf g gr Hh Hs) as (-> & -> & ->).
  unfold replayed. f_equal.
  destruct gr; simpl in *; subst. by rewrite app_nil_r.
Qed.

Lemma mirrors_new o : mirrors (new o).
Proof.
  intros g a g1 Hm H.
  apply (mirrors_update (fun g => length (heap g)) (fun g => heap g ++ [o])
           storage); [| done |].
  - intros g0 g' -> ->. done.
  - unfold new in H. injection H as <- <-. by destruct g.
Qed.

Lemma mirrors_assign a o : mirrors (assign a o).
Proof.
  intros g x g1 Hm H.
  apply (mirrors_update (fun _ => tt) (fun g => <[a := o]> (heap g)) storage);
    [| done |].
  - intros g0 g' -> ->. done.
  - unfold assign in H. injection H as <- <-. by destruct g.
Qed.

Lemma mirrors_store t a : mirrors (store t a).
Proof.
  intros g x g1 Hm H.
  apply (mirrors_update (fun _ => Some a) heap
           (fun g => <[t := pool g t ++ [a]]> (storage g))); [| done |].
  - intros g0 g' Hh Hs. unfold pool. by rewrite Hs.
  - unfold store in H. injection H as <- <-. by destruct g.
Qed.

Lemma mirrors_oldies_of t : mirrors (oldies_of t).
Proof.
  intros g x g1 Hm H.
  apply (mirrors_update (fun g => pool g t) heap
           (fun g => <[t := pool g t]> (storage g))); [| done |].
  - intros g0 g' Hh Hs. unfold pool. by rewrite Hs.
  - unfold oldies_of in H. injection H as <- <-. by destruct g.
Qed.

Lemma mirrors_load p : mirrors (load p).
Proof.
  intros g o g1 Hm H. apply load_Ok in H as [-> (a & -> & Ho)].
  split; [done |]. exists []. split; [by rewrite app_nil_r |].
  intros gr rest Hmr Hh Hs Hi. unfold load. rewrite Hh, Ho.
  unfold replayed. f_equal.
  destruct gr; simpl in *; subst. by rewrite app_nil_r.
Qed.

(** [between] with bounds in order: the value drawn is the value read
    back. *)
Lemma mirrors_between T lo hi id :
  call_ok {| c_type := T; c_lo := lo; c_hi := hi; c_id := id |} ->
  mirrors (between T lo hi id).
Proof.
  intros Hok g v g1 Hm H. rewrite between_generate in H by done.
  injection H as <- <-. split; [done |].
  exists (record T (uniform_random T lo hi (rgen g)).1 id). split; [done |].
  intros gr rest Hmr Hh Hs Hi.
  destruct (uniform_random_range T lo hi (rgen g) Hok) as (_ & _ & Hrep).
  rewrite (between_replay_record T lo hi id _ id rest gr Hmr Hi).
  rewrite decode_encode by done.
  unfold replayed. f_equal.
  destruct gr; simpl in *; subst. done.
Qed.

End Replay.

Section ReplayMake.
Context {P : program}.

Lemma call_ok_limits T :
  call_ok {| c_type := T; c_lo := numeric_min T; c_hi := numeric_max T;
             c_id := 0 |}.
Proof. destruct T; repeat split; vm_compute; congruence. Qed.

Lemma call_ok_unsigned T hi id :
  is_float T = false -> is_signed T = false ->
  call_ok {| c_type := T; c_lo := 0; c_hi := wrap T hi; c_id := id |}.
Proof.
  intros Hf Hs. unfold call_ok, representable, num_le, wrap. simpl.
  rewrite Hf, Hs.
  assert (0 < 2 ^ bitsof T) as Hp
    by (apply Z.pow_pos_nonneg; [lia | pose proof (bitsof_pos T); lia]).
  pose proof (Z.mod_pos_bound hi (2 ^ bitsof T) Hp).
  repeat split; try lia; try (apply Z.leb_le; lia).
Qed.

Lemma call_ok_id c id :
  call_ok c ->
  call_ok {| c_type := c_type c; c_lo := c_lo c; c_hi := c_hi c; c_id := id |}.
Proof. done. Qed.

Lemma mirrors_write_char buf i v : mirrors (write_char buf i v).
Proof.
  unfold write_char. apply mirrors_bind; [apply mirrors_load |].
  intros [| |cells|]; try apply mirrors_stop.
  destruct (_ && _); [apply mirrors_assign | apply mirrors_stop].
Qed.

Lemma mirrors_new_chars n : mirrors (new_chars n).
Proof.
  unfold new_chars. destruct (n <? 0); [apply mirrors_stop | apply mirrors_new].
Qed.

Lemma mirrors_invoked obj k : mirrors (invoked obj k).
Proof.
  unfold invoked. apply mirrors_bind; [apply mirrors_load |].
  intros [| | |c data calls]; try apply mirrors_stop. apply mirrors_assign.
Qed.

Lemma mirrors_run {A} mk (p : prog A) :
  (forall t id allow, mirrors (mk t id allow)) ->
  prog_ok p -> mirrors (run mk p).
Proof.
  intros Hmk Hp. induction Hp as [a|T lo hi id k Hc Hk IH|t id allow k Hk IH
                                  |q k Hk IH|f]; simpl.
  - apply mirrors_ret.
  - apply mirrors_bind; [by apply mirrors_between | exact IH].
  - apply mirrors_bind; [apply Hmk | exact IH].
  - apply mirrors_bind; [apply mirrors_load | exact IH].
  - apply mirrors_stop.
Qed.

Lemma mirrors_spin mk h obj id n :
  (forall t id allow, mirrors (mk t id allow)) ->
  (forall m o, m ∈ mroulette h -> prog_ok (m o)) ->
  mirrors (spin mk h obj id n).
Proof.
  intros Hmk Hh. induction n as [|n IH]; simpl; [apply mirrors_ret |].
  apply mirrors_bind; [by apply mirrors_between, call_ok_unsigned |].
  intros k. destruct (mroulette h !! Z.to_nat k) as [m|] eqn:E;
    [| apply mirrors_stop].
  apply mirrors_bind; [apply mirrors_invoked |]. intros _.
  apply mirrors_bind; [| by intros _].
  apply mirrors_run; [done |]. eapply Hh, list_elem_of_lookup_2, E.
Qed.

Lemma mirrors_makenew_class mk c id allow :
  program_ok P ->
  (forall t id allow, mirrors (mk t id allow)) ->
  mirrors (makenew_class mk c id allow).
Proof.
  intros [Hsl Hh] Hmk. destruct (Hh c) as (Hc & Hm & Hs).
  unfold makenew_class. apply mirrors_bind.
  - destruct (_ && _); [| apply mirrors_ret].
    apply mirrors_bind; [| intros x; apply mirrors_ret].
    apply mirrors_between. repeat split; vm_compute; congruence.
  - intros [|].
    + apply mirrors_bind; [by apply mirrors_between, call_ok_unsigned |].
      intros i. destruct (submakers (harness c) !! Z.to_nat i) as [f|] eqn:E;
        [| apply mirrors_stop].
      apply mirrors_run; [done |]. eapply Hs, list_elem_of_lookup_2, E.
    + apply mirrors_bind; [by apply mirrors_run |]. intros data.
      apply mirrors_bind; [apply mirrors_new |]. intros obj.
      apply mirrors_bind; [| intros _; apply mirrors_store].
      destruct (negb _); [| apply mirrors_ret].
      apply mirrors_bind; [| intros e; by apply mirrors_spin].
      apply mirrors_between. unfold call_ok, representable, num_le. simpl.
      change (bitsof T_unsigned) with 32.
      repeat split; try lia; try (apply Z.leb_le; lia).
Qed.

Lemma mirrors_fill_chars buf id n : forall i, mirrors (fill_chars buf id n i).
Proof.
  induction n as [|n IH]; intros i; simpl; [apply mirrors_ret |].
  apply mirrors_bind;
    [apply mirrors_between, (call_ok_id _ id (call_ok_limits T_char)) |].
  intros c. apply mirrors_bind; [apply mirrors_write_char |]. intros _.
  apply IH.
Qed.

Lemma mirrors_makenew_char_ptr mk id :
  (forall t id allow, mirrors (mk t id allow)) ->
  mirrors (makenew_char_ptr mk id).
Proof.
  intros Hmk. unfold makenew_char_ptr.
  apply mirrors_bind; [apply mirrors_new |]. intros r.
  apply mirrors_bind; [apply Hmk |]. intros p.
  apply mirrors_bind; [apply mirrors_load |].
  intros [T sz| | |]; try apply mirrors_stop.
  apply mirrors_bind; [apply mirrors_new_chars |]. intros buf.
  apply mirrors_bind; [apply mirrors_assign |]. intros _.
  apply mirrors_bind; [apply mirrors_write_char |]. intros _.
  apply mirrors_bind; [apply mirrors_fill_chars |]. intros _.
  apply mirrors_ret.
Qed.

Lemma mirrors_makenew mk t id allow :
  program_ok P ->
  (forall t id allow, mirrors (mk t id allow)) ->
  mirrors (makenew mk t id allow).
Proof.
  intros HP Hmk. unfold makenew. destruct t as [T|c|pointee| |].
  - apply mirrors_bind;
      [apply mirrors_between, (call_ok_id _ id (call_ok_limits T)) |].
    intros v. apply mirrors_bind; [apply mirrors_new |]. intros a.
    apply mirrors_store.
  - by apply mirrors_makenew_class.
  - destruct (is_char_ptr (TPtr pointee)).
    + by apply mirrors_makenew_char_ptr.
    + apply mirrors_bind; [apply Hmk |]. intros p.
      apply mirrors_bind; [apply mirrors_new |]. intros a.
      apply mirrors_store.
  - apply mirrors_bind; [apply mirrors_between; repeat split; done |].
    intros n. apply mirrors_bind; [apply mirrors_new_chars |]. intros a.
    apply mirrors_store.
  - apply mirrors_ret.
Qed.

Lemma mirrors_make fuel :
  program_ok P -> forall t id allow, mirrors (make fuel t id allow).
Proof.
  intros HP. induction fuel as [|f IH]; intros t id allow; simpl;
    [apply mirrors_stop |].
  apply mirrors_bind; [apply mirrors_oldies_of |]. intros oldies.
  unfold reuse. rewrite andb_false_r. by apply mirrors_makenew.
Qed.

End ReplayMake.

(** X1.  A generating run of [make] can be replayed: if, in generate mode,
    [make] returns [p] and leaves the engine [g1], then the output log of
    [g1] is the log before followed by some bytes [w]; and an engine in
    replay mode that holds the same objects and pools as before and whose
    input log starts with [w] returns the same [p] from the same call,
    ends with the objects and pools of [g1], has appended [w] to its own
    output log, and has consumed exactly [w] from its input. *)
Theorem make_replays {P : program} fuel t id allow g p g1 :
  program_ok P ->
  runmode g = generate ->
  make fuel t id allow g = Ok p g1 ->
  exists w,
    olog g1 = olog g ++ w /\
    forall gr rest,
      runmode gr = replay -> heap gr = heap g -> storage gr = storage g ->
      ilog gr = {| unread := w ++ rest; failed := false |} ->
      make fuel t id allow gr = Ok p (replayed g1 gr w rest).
Proof.
  intros HP Hm H.
  destruct (mirrors_make fuel HP t id allow g p g1 Hm H) as (_ & w & Hw).
  by exists w.
Qed.

(** ** What a run of [make] leaves as it is *)

Section Frame.
Context {P : program}.
Variable R : gen -> gen -> Prop.
Hypothesis HR : framed R.

Lemma keeps_ret {A} (a : A) : keeps R (ret a).
Proof. intros g x g' [= <- <-]. apply (framed_refl _ HR). Qed.

Lemma keeps_stop {A} f : keeps R (@stop A f).
Proof. by intros g x g' H. Qed.

Lemma keeps_bind {A B} (m : M A) (k : A -> M B) :
  keeps R m -> (forall a, keeps R (k a)) -> keeps R (bind m k).
Proof.
  intros Hm Hk g b g2 H. apply bind_Ok in H as (a & g1 & H1 & H2).
  eapply (framed_trans _ HR); [by eapply Hm | by eapply Hk].
Qed.

Lemma keeps_new o : keeps R (new o).
Proof. intros g a g' [= <- <-]. apply (framed_heap _ HR). Qed.

Lemma keeps_assign a o : keeps R (assign a o).
Proof. intros g x g' [= <- <-]. apply (framed_heap _ HR). Qed.

Lemma keeps_load p : keeps R (load p).
Proof. intros g o g' H. apply load_Ok in H as [-> _]. apply (framed_refl _ HR). Qed.

Lemma keeps_store t a : storable t = true -> keeps R (store t a).
Proof. intros Ht g x g' [= <- <-]. by apply (framed_store _ HR). Qed.

Lemma keeps_oldies_of t : keeps R (oldies_of t).
Proof. intros g x g' [= <- <-]. apply (framed_oldies _ HR). Qed.

Lemma keeps_write_char buf i v : keeps R (write_char buf i v).
Proof.
  unfold write_char. apply keeps_bind; [apply keeps_load |].
  intros [| |cells|]; try apply keeps_stop.
  destruct (_ && _); [apply keeps_assign | apply keeps_stop].
Qed.

Lemma keeps_new_chars n : keeps R (new_chars n).
Proof.
  unfold new_chars. destruct (n <? 0); [apply keeps_stop | apply keeps_new].
Qed.

Lemma keeps_invoked obj k : keeps R (invoked obj k).
Proof.
  unfold invoked. apply keeps_bind; [apply keeps_load |].
  intros [| | |c data calls]; try apply keeps_stop. apply keeps_assign.
Qed.

Lemma keeps_run {A} mk (p : prog A) :
  (forall t id allow, keeps R (mk t id allow)) -> keeps R (run mk p).
Proof.
  intros Hmk. induction p as [a|T lo hi id k IH|t id allow k IH|q k IH|f];
    simpl.
  - apply keeps_ret.
  - apply keeps_bind; [apply (framed_between _ HR) | exact IH].
  - apply keeps_bind; [apply Hmk | exact IH].
  - apply keeps_bind; [apply keeps_load | exact IH].
  - apply keeps_stop.
Qed.

Lemma keeps_spin mk h obj id n :
  (forall t id allow, keeps R (mk t id allow)) ->
  keeps R (spin mk h obj id n).
Proof.
  intros Hmk. induction n as [|n IH]; simpl; [apply keeps_ret |].
  apply keeps_bind; [apply (framed_between _ HR) |].
  intros k. destruct (mroulette h !! Z.to_nat k) as [m|];
    [| apply keeps_stop].
  apply keeps_bind; [apply keeps_invoked |]. intros _.
  apply keeps_bind; [by apply keeps_run | by intros _].
Qed.

Lemma keeps_makenew_class mk c id allow :
  (forall t id allow, keeps R (mk t id allow)) ->
  keeps R (makenew_class mk c id allow).
Proof.
  intros Hmk. unfold makenew_class. apply keeps_bind.
  - destruct (_ && _); [| apply keeps_ret].
    apply keeps_bind; [apply (framed_between _ HR) | intros x; apply keeps_ret].
  - intros [|].
    + apply keeps_bind; [apply (framed_between _ HR) |].
      intros i. destruct (submakers (harness c) !! Z.to_nat i) as [f|];
        [by apply keeps_run | apply keeps_stop].
    + apply keeps_bind; [by apply keeps_run |]. intros data.
      apply keeps_bind; [apply keeps_new |]. intros obj.
      apply keeps_bind; [| intros _; by apply keeps_store].
      destruct (negb _); [| apply keeps_ret].
      apply keeps_bind; [apply (framed_between _ HR) | intros e; by apply keeps_spin].
Qed.

Lemma keeps_fill_chars buf id n : forall i, keeps R (fill_chars buf id n i).
Proof.
  induction n as [|n IH]; intros i; simpl; [apply keeps_ret |].
  apply keeps_bind; [apply (framed_between _ HR) |].
  intros c. apply keeps_bind; [apply keeps_write_char |]. intros _.
  apply IH.
Qed.

Lemma keeps_makenew_char_ptr mk id :
  (forall t id allow, keeps R (mk t id allow)) ->
  keeps R (makenew_char_ptr mk id).
Proof.
  intros Hmk. unfold makenew_char_ptr.
  apply keeps_bind; [apply keeps_new |]. intros r.
  apply keeps_bind; [apply Hmk |]. intros p.
  apply keeps_bind; [apply keeps_load |].
  intros [T sz| | |]; try apply keeps_stop.
  apply keeps_bind; [apply keeps_new_chars |]. intros buf.
  apply keeps_bind; [apply keeps_assign |]. intros _.
  apply keeps_bind; [apply keeps_write_char |]. intros _.
  apply keeps_bind; [apply keeps_fill_chars |]. intros _.
  apply keeps_ret.
Qed.

Lemma keeps_makenew mk t id allow :
  (forall t id allow, keeps R (mk t id allow)) ->
  keeps R (makenew mk t id allow).
Proof.
  intros Hmk. unfold makenew. destruct t as [T|c|pointee| |].
  - apply keeps_bind; [apply (framed_between _ HR) |].
    intros v. apply keeps_bind; [apply keeps_new |]. intros a.
    by apply keeps_store.
  - by apply keeps_makenew_class.
  - destruct (is_char_ptr (TPtr pointee)) eqn:E.
    + by apply keeps_makenew_char_ptr.
    + apply keeps_bind; [apply Hmk |]. intros p.
      apply keeps_bind; [apply keeps_new |]. intros a.
      apply keeps_store. unfold storable. by rewrite E.
  - apply keeps_bind; [apply (framed_between _ HR) |].
    intros n. apply keeps_bind; [apply keeps_new_chars |]. intros a.
    by apply keeps_store.
  - apply keeps_ret.
Qed.

Lemma keeps_make fuel : forall t id allow, keeps R (make fuel t id allow).
Proof.
  induction fuel as [|f IH]; intros t id allow; simpl; [apply keeps_stop |].
  apply keeps_bind; [apply keeps_oldies_of |]. intros oldies.
  unfold reuse. rewrite andb_false_r. by apply keeps_makenew.
Qed.

End Frame.

Section Frames.
Context {P : program}.

Lemma framed_logs_records : framed logs_records.
Proof.
  split.
  - intros g. split; [done |]. exists []. by rewrite app_nil_r.
  - intros g1 g2 g3 [Hm1 [r1 H1]] [Hm2 [r2 H2]]. split; [congruence |].
    exists (r1 ++ r2). unfold records in *.
    by rewrite H2, H1, map_app, join_app, app_assoc.
  - intros T lo hi id g v g' H.
    apply between_returns in H as (Hl & Hm & _). split; [done |].
    exists [(T, v, id)]. unfold records. simpl. by rewrite app_nil_r.
  - intros g h. split; [done |]. exists []. by rewrite app_nil_r.
  - intros g t a _. split; [done |]. exists []. by rewrite app_nil_r.
  - intros g t. split; [done |]. exists []. by rewrite app_nil_r.
Qed.

Lemma framed_spares_source : framed spares_source.
Proof.
  split; try done.
  - intros g1 g2 g3 (Hm1 & Hr1 & Hi1) (Hm2 & Hr2 & Hi2).
    rewrite Hm1 in Hr2, Hi2.
    split; [congruence |]. split; intros H.
    + by rewrite Hr2, Hr1.
    + by rewrite Hi2, Hi1.
  - intros T lo hi id g v g' H.
    pose proof (between_returns _ _ _ _ _ _ _ H) as (_ & Hm & _).
    split; [done |]. split; intros Hg.
    + unfold between, bind in H. rewrite Hg in H. unfold input in H.
      destruct (stream_get (ilog g)) as [c s1].
      destruct (Byte.eqb _ _); [| done].
      destruct (stream_read (sizeof T) s1) as [bs s2].
      destruct (stream_read (sizeof T_size_t) s2) as [ids s3].
      by injection H as _ <-.
    + rewrite between_generate in H by done. by injection H as _ <-.
Qed.

Lemma framed_pools_grow : framed pools_grow.
Proof.
  split.
  - by intros g t.
  - intros g1 g2 g3 H1 H2 t.
    destruct (H1 t) as [Hp1 He1], (H2 t) as [Hp2 He2]. split.
    + by etrans.
    + intros Ht. by rewrite He2, He1.
  - intros T lo hi id g v g' H.
    apply between_returns in H as (_ & _ & Hs & _).
    intros t. unfold pool. by rewrite Hs.
  - by intros g h t.
  - intros g t a Ht t'. rewrite pool_insert.
    destruct (decide (t = t')) as [<-|Hne]; [| done].
    split; [by apply prefix_app_r | congruence].
  - intros g t t'. rewrite pool_insert.
    by destruct (decide (t = t')) as [<-|Hne].
Qed.

End Frames.

(** X2.  Whenever [make] returns, the mode is the same and the output log
    is the log before followed by whole records (tag, value, id), in both
    modes: nothing written earlier is changed, and nothing but records is
    written. *)
Theorem make_writes_whole_records {P : program} fuel t id allow g p g' :
  make fuel t id allow g = Ok p g' ->
  runmode g' = runmode g /\
  exists recs, olog g' = olog g ++ records recs.
Proof. apply (keeps_make logs_records framed_logs_records). Qed.

(** X3.  Whenever [make] returns, the source of values its mode does not
    use is untouched: a replay draws nothing from the random generator,
    and a generating run reads nothing from the input log. *)
Theorem make_spares_other_source {P : program} fuel t id allow g p g' :
  make fuel t id allow g = Ok p g' ->
  (runmode g = replay -> rgen g' = rgen g) /\
  (runmode g = generate -> ilog g' = ilog g).
Proof.
  intros H. by apply (keeps_make spares_source framed_spares_source) in H as [_ H].
Qed.

(** X4.  Whenever [make] returns, every pool is the pool before followed
    by the handles stored meanwhile; and the pools of [char*] and of
    function types are as before: the overloads for these two categories
    never call [store]. *)
Theorem make_pools_grow {P : program} fuel t id allow g p g' :
  make fuel t id allow g = Ok p g' ->
  forall t',
    pool g t' `prefix_of` pool g' t' /\
    (storable t' = false -> pool g' t' = pool g t').
Proof. apply (keeps_make pools_grow framed_pools_grow). Qed.

Section Results.
Context {P : program}.

(** The roulette part of the class overload leaves the new instance in
    place. *)
Lemma roulette_keeps_instance mk h obj id g g' c d :
  good_make mk ->
  heap g !! obj = Some (OClass c d []) ->
  (if negb (mcount h =? 0)
   then let* e := between T_unsigned 0 spinlimit id in
        spin mk h obj id (Z.to_nat e)
   else ret tt) g = Ok tt g' ->
  evolves obj g g' /\ (inv g -> inv g') /\
  exists calls, heap g' !! obj = Some (OClass c d calls).
Proof.
  intros Hmk Ho Hl. destruct (negb (mcount h =? 0)).
  - apply bind_Ok in Hl as (e & g2 & He & Hl).
    pose proof (between_returns _ _ _ _ _ _ _ He) as (_ & Hm & _ & Hh).
    pose proof (between_step _ _ _ _ _ _ _ He) as [He' Hi'].
    eapply (spin_spec mk _ _ _ Hmk) in Hl as (He3 & Hi3 & calls & Ho3 & _).
    + split; [| split; [tauto | eauto]].
      eapply evolves_trans; [| exact He3].
      eapply evolves_mono; [| exact He'].
      apply lookup_lt_Some in Ho. lia.
    + by rewrite Hh.
    + rewrite Hm. intros Hg Hs.
      eapply between_generate_bounds in He; [| done | done | done].
      simpl. lia.
  - injection Hl as <-. split; [apply evolves_refl |]. split; eauto.
Qed.

Lemma store_newest t a g p g' :
  store t a g = Ok p g' ->
  p = Some a /\ heap g' = heap g /\ last (pool g' t) = Some a.
Proof.
  unfold store. intros [= <- <-]. split; [done |]. split; [done |].
  rewrite pool_insert. destruct (decide (t = t)); [| done]. apply last_snoc.
Qed.

Lemma step_length g g' : step g g' -> (length (heap g) <= length (heap g'))%nat.
Proof. by intros [(_ & H & _) _]. Qed.

End Results.

(** X5.  Whenever [make] returns, the free store has only grown: every
    object that existed before the call is still there, unchanged. *)
Theorem make_keeps_objects {P : program} fuel t id allow g p g' :
  make fuel t id allow g = Ok p g' ->
  (length (heap g) <= length (heap g'))%nat /\
  forall a, (a < length (heap g))%nat -> heap g' !! a = heap g !! a.
Proof.
  intros H. apply make_step in H as [(_ & Hl & Hf & _) _]. by split.
Qed.

(** What [make] without [or_subclass] returns for a storable type. *)
Lemma make_result {P : program} fuel t id g p g' :
  storable t = true ->
  make fuel t id false g = Ok p g' ->
  exists a o,
    p = Some a /\ (length (heap g) <= a)%nat /\
    heap g' !! a = Some o /\ kind o = stored_under t /\
    last (pool g' (stored_under t)) = Some a.
Proof.
  intros Ht H. destruct fuel as [|f]; [done |]. simpl in H.
  apply bind_Ok in H as (oldies & g0 & Ho & H).
  unfold oldies_of in Ho. injection Ho as <- <-.
  rewrite andb_false_r in H. unfold makenew in H.
  destruct t as [T|c|pointee| |]; [| | | | done].
  - apply bind_Ok in H as (v & g1 & Hv & H).
    apply bind_Ok in H as (a & g2 & Ha & H).
    apply between_returns in Hv as (_ & _ & _ & Hh). simpl in Hh.
    apply new_Ok in Ha as (-> & Ho & _).
    apply store_newest in H as (-> & Hh' & Hl).
    exists (length (heap g1)), (ONum T v). rewrite Hh'.
    repeat split; try done. by rewrite Hh.
  - unfold makenew_class in H. rewrite andb_false_r in H.
    apply bind_Ok in H as (sub & g0 & [= <- <-] & H).
    apply bind_Ok in H as (data & g1 & Hc & H).
    apply bind_Ok in H as (obj & g2 & Hn & H).
    apply bind_Ok in H as ([] & g3 & Hl & H).
    apply (run_step _ _ (make_step f)), step_length in Hc. simpl in Hc.
    apply new_Ok in Hn as (-> & Ho2 & _).
    eapply roulette_keeps_instance in Hl as (_ & _ & calls & Ho3);
      [| apply make_step | exact Ho2].
    apply store_newest in H as (-> & Hh' & Hl).
    eexists _, _. rewrite Hh'. by repeat split.
  - destruct (is_char_ptr (TPtr pointee)) eqn:E;
      [unfold storable in Ht; by rewrite E in Ht |].
    apply bind_Ok in H as (q & g1 & Hq & H).
    apply bind_Ok in H as (a & g2 & Ha & H).
    apply make_step, step_length in Hq. simpl in Hq.
    apply new_Ok in Ha as (-> & Ho & _).
    apply store_newest in H as (-> & Hh' & Hl).
    eexists _, _. rewrite Hh'. by repeat split.
  - apply bind_Ok in H as (n & g1 & Hn & H).
    apply bind_Ok in H as (a & g2 & Ha & H).
    apply between_returns in Hn as (_ & _ & _ & Hh). simpl in Hh.
    unfold new_chars in Ha. destruct (n <? 0); [done |].
    apply new_Ok in Ha as (-> & Ho & _).
    apply store_newest in H as (-> & Hh' & Hl).
    eexists _, _. rewrite Hh'. repeat split; try done. by rewrite Hh.
Qed.

(** X6.  [make<T>(id)] without [or_subclass], for a storable [T] (every
    category but [char*] and functions): whenever it returns, the result
    is an object created during the call, of the type its harness
    creates, and it is the newest element of that type's pool. *)
Theorem make_returns_newest {P : program} fuel t id g p g' :
  storable t = true ->
  make fuel t id false g = Ok p g' ->
  exists a o,
    p = Some a /\ (length (heap g) <= a)%nat /\
    heap g' !! a = Some o /\ kind o = stored_under t /\
    last (pool g' (stored_under t)) = Some a.
Proof. apply make_result. Qed.

(** X20.  [make<T>(id)] without [or_subclass] returns a null pointer for
    function types and for nothing else. *)
Theorem make_null_only_for_functions {P : program} fuel t id g p g' :
  make fuel t id false g = Ok p g' ->
  p = None <-> t = TFunc.
Proof.
  intros H. destruct (storable t) eqn:Ht.
  - destruct (make_result _ _ _ _ _ _ Ht H) as (a & o & -> & _).
    split; [done |]. intros ->. done.
  - destruct t as [T|c|pointee| |]; try done.
    + destruct pointee as [[]| | | |]; try done.
      apply make_char_ptr_Ok in H as (r & ? & ? & ? & -> & _). done.
    + destruct fuel as [|f]; [done |]. simpl in H.
      apply bind_Ok in H as (oldies & g0 & _ & H).
      rewrite andb_false_r in H. by injection H as <- _.
Qed.

(** ** The log, byte by byte *)

Section Bytes.
Context {P : program}.

(** The bytes of a value are the bytes it was read from. *)
Lemma encode_decode T bs : length bs = sizeof T -> encode T (decode T bs) = bs.
Proof.
  intros Hl. unfold encode, decode.
  destruct (is_signed T && (2 ^ (bitsof T - 1) <=? le_combine bs)).
  - rewrite le_split_mod.
    replace (Z.of_nat (sizeof T) * 8) with (bitsof T) by (unfold bitsof; lia).
    rewrite <- (Z.mul_1_l (2 ^ bitsof T)) at 1.
    replace (le_combine bs - 1 * 2 ^ bitsof T)
      with (le_combine bs + (-1) * 2 ^ bitsof T) by lia.
    rewrite Z.mod_add by (pose proof (pow_bitsof T); pose proof (bitsof_pos T);
                          assert (0 < 2 ^ (bitsof T - 1))
                            by (apply Z.pow_pos_nonneg; lia); lia).
    replace (bitsof T) with (Z.of_nat (sizeof T) * 8) by (unfold bitsof; lia).
    rewrite <- le_split_mod. by apply split_le_combine'.
  - by apply split_le_combine'.
Qed.

Lemma typetag_eqb T : Byte.eqb (typetag T) (typetag T) = true.
Proof. by apply Byte.byte_dec_lb. Qed.

End Bytes.

(** X7.  A replay at the end of its input log, for a type whose tag is
    not the character that EOF converts to, never returns from [between]:
    [get] yields EOF and the assertion on the type tag fails. *)
Theorem replay_at_end_of_log {P : program} T lo hi id g :
  runmode g = replay ->
  failed (ilog g) = true \/ unread (ilog g) = [] ->
  typetag T <> Byte.xff ->
  between T lo hi id g = Stop assertion_failed.
Proof.
  intros Hm He Ht. unfold between, bind. rewrite Hm. unfold input, stream_get.
  assert (forall s : ifstream,
            failed s = true \/ unread s = [] ->
            exists s', (if failed s then (None, s)
                        else match unread s with
                             | [] => (None, {| unread := []; failed := true |})
                             | b :: rest =>
                                 (Some b, {| unread := rest; failed := false |})
                             end) = (@None byte, s'))
    as Hget.
  { intros s [Hf| Hu].
    - rewrite Hf. eauto.
    - destruct (failed s) eqn:Hf; [eauto |]. rewrite Hu. eauto. }
  destruct (Hget _ He) as (s' & ->).
  destruct (Byte.eqb Byte.xff (typetag T)) eqn:E; [| done].
  by apply Byte.byte_dec_bl in E.
Qed.

(** X8.  A replay whose input log breaks off inside the value of a record
    returns from [between] all the same: the tag is accepted, fewer bytes
    than the value has are read, and the stream is never tested.  The
    value returned has the bytes read as the first bytes of its
    representation and, after them, the bytes the variable held before;
    a whole record with this value and the call's id is appended to the
    output log, and the input stream is left failed. *)
Theorem replay_of_a_truncated_value {P : program} T lo hi id bs g :
  runmode g = replay ->
  ilog g = {| unread := typetag T :: bs; failed := false |} ->
  (length bs < sizeof T)%nat ->
  exists v g',
    between T lo hi id g = Ok v g' /\
    encode T v = bs ++ drop (length bs) (encode T (indeterminate T)) /\
    olog g' = olog g ++ record T v id /\
    ilog g' = {| unread := []; failed := true |}.
Proof.
  intros Hm Hi Hl. unfold between, bind. rewrite Hm. unfold input.
  rewrite Hi. unfold stream_get. simpl. rewrite typetag_eqb.
  unfold stream_read. simpl.
  rewrite bool_decide_eq_true_2 by done. simpl.
  rewrite (take_ge bs), (drop_ge bs) by lia.
  eexists _, _. split; [reflexivity |]. simpl. split; [| split; [| done]].
  - apply encode_decode.
    rewrite length_app, length_drop, encode_length. lia.
  - unfold record. by rewrite <- !app_assoc.
Qed.

(** X9.  A replay copies a record byte for byte, whatever bytes the value
    has: from an input log that starts with the tag of [T] and as many
    bytes [bs] as a [T] has, [between] returns the value of [bs] and
    appends the tag, [bs] and the bytes of its own id to the output log.
    It skips the stored id; when fewer bytes than an id has are left, the
    call returns all the same and leaves the input stream failed. *)
Theorem replay_copies_bytes {P : program} T lo hi id bs tail g :
  runmode g = replay ->
  ilog g = {| unread := typetag T :: bs ++ tail; failed := false |} ->
  length bs = sizeof T ->
  exists g',
    between T lo hi id g = Ok (decode T bs) g' /\
    olog g' = olog g ++ typetag T :: bs ++ encode T_size_t id /\
    ilog g' = {| unread := drop (sizeof T_size_t) tail;
                 failed := bool_decide (length tail < sizeof T_size_t)%nat |}.
Proof.
  intros Hm Hi Hl. unfold between, bind. rewrite Hm. unfold input.
  rewrite Hi. unfold stream_get. simpl. rewrite typetag_eqb.
  unfold stream_read. simpl.
  rewrite take_app_length', drop_app_length' by done.
  rewrite (drop_ge (encode T (indeterminate T))) by (rewrite encode_length; lia).
  rewrite app_nil_r.
  rewrite bool_decide_eq_false_2 by (rewrite length_app; lia). simpl.
  eexists. split; [reflexivity |]. simpl.
  rewrite encode_decode by done. split; [| done].
  by rewrite <- !app_assoc.
Qed.

(** ** The overloads of [makenew], one by one *)

Section Overloads.
Context {P : program}.

Lemma run_pbind {A B} mk (p : prog A) (f : A -> prog B) g :
  run mk (pbind p f) g = bind (run mk p) (fun a => run mk (f a)) g.
Proof.
  revert g. induction p as [a|T lo hi id k IH|t id allow k IH|q k IH|e];
    intros g; simpl; try done.
  - unfold bind. destruct (between T lo hi id g) as [v g1|]; [| done]. apply IH.
  - unfold bind. destruct (mk t id allow g) as [h g1|]; [| done]. apply IH.
  - unfold bind. destruct (load q g) as [o g1|]; [| done]. apply IH.
Qed.

(** [*g.make<T>(id)]: one new object, whose value is the result. *)
Lemma run_make_value fuel T id g v g' :
  run (make fuel) (make_value T id) g = Ok v g' ->
  heap g' = heap g ++ [ONum T v].
Proof.
  unfold make_value. simpl. intros H.
  apply bind_Ok in H as (p & g1 & Hp & H).
  apply bind_Ok in H as (o & g2 & Hl & H).
  apply load_Ok in Hl as [-> (a & -> & Ho)].
  pose proof (make_num_Ok _ _ _ _ _ _ _ Hp) as ([= ->] & _ & v' & Hh).
  rewrite Hh, lookup_app_r, Nat.sub_diag in Ho by done.
  injection Ho as <-. by injection H as <- <-.
Qed.

(** The loop of the vector harness: one new object per element. *)
Lemma run_vector_loop fuel Tp n : forall g vs g',
  run (make fuel) (vector_loop Tp n) g = Ok vs g' ->
  length vs = n /\ heap g' = heap g ++ map (ONum Tp) vs.
Proof.
  induction n as [|n IH]; intros g vs g' H; cbn [vector_loop] in H.
  - injection H as <- <-. by rewrite app_nil_r.
  - rewrite run_pbind in H. apply bind_Ok in H as (v & g1 & Hv & H).
    rewrite run_pbind in H. apply bind_Ok in H as (ws & g2 & Hw & H).
    injection H as <- <-.
    apply run_make_value in Hv. apply IH in Hw as [<- Hh].
    split; [done |]. rewrite Hh, Hv. simpl. by rewrite <- app_assoc.
Qed.

End Overloads.

(** X10.  [harness<std::vector<Tp>>] for an arithmetic [Tp]: whenever
    [make] returns for a class with this harness, the objects it has
    created are the size [n], a [size_t], one [Tp] per element, and the
    vector, which has [n] elements: the values of these objects, in
    order.  The result is the vector. *)
Theorem vector_harness_makes_each_element {P : program} fuel c name Tp id
    allow g p g' :
  harness c = harness_vector name Tp ->
  make fuel (TClass c) id allow g = Ok p g' ->
  exists n data,
    length data = Z.to_nat n /\
    heap g' = heap g ++ ONum T_size_t n :: map (ONum Tp) data
                     ++ [OClass name data []] /\
    p = Some (length (heap g) + 1 + length data)%nat.
Proof.
  intros Hh H. destruct fuel as [|f]; [done |]. simpl in H.
  apply bind_Ok in H as (oldies & g0 & [= <- <-] & H).
  rewrite andb_false_r in H. unfold makenew, makenew_class in H.
  rewrite Hh in H. remember (harness_vector name Tp) as h eqn:Eh.
  assert (subcount h = 0) as Hsub by (by subst).
  assert (mcount h = 0) as Hmc by (by subst).
  assert (obj_class h = name) as Hcl by (by subst).
  rewrite Hsub, Hmc, Hcl in H. simpl in H.
  apply bind_Ok in H as (sub & g0 & [= <- <-] & H).
  apply bind_Ok in H as (data & g1 & Hc & H).
  apply bind_Ok in H as (obj & g2 & [= <- <-] & H).
  apply bind_Ok in H as ([] & g3 & [= <-] & [= <- <-]).
  subst h. cbn [ctor harness_vector] in Hc.
  rewrite run_pbind in Hc. apply bind_Ok in Hc as (n & g4 & Hn & Hc).
  apply run_make_value in Hn. apply run_vector_loop in Hc as [Hl Hd].
  simpl in Hn. exists n, data. split; [done |]. simpl.
  rewrite Hd, Hn, <- !app_assoc. split; [done |].
  rewrite !length_app, length_map. simpl. f_equal. lia.
Qed.

(** X11.  [or_subclass] makes no difference for a type that is no class
    with subclasses: for an arithmetic type, [void], a function type, a
    class whose harness has no submakers, and any pointer chain over one
    of these, [make<T>(id, true)] is [make<T>(id, false)]. *)
Theorem or_subclass_needs_submakers {P : program} fuel t id g :
  (forall c, class_of t = Some c -> subcount (harness c) = 0) ->
  make fuel t id true g = make fuel t id false g.
Proof.
  revert t g. induction fuel as [|f IH]; intros t g Hc; [done |]. simpl.
  unfold bind, oldies_of. rewrite andb_false_r.
  destruct t as [T|c|pointee| |]; try done.
  - unfold makenew, makenew_class.
    by rewrite (Hc c eq_refl).
  - unfold makenew. destruct (is_char_ptr (TPtr pointee)); [done |].
    unfold bind. by rewrite IH.
Qed.

(** X12.  Whenever [make<char*>] returns, the object made right after the
    pointer slot is the [size_t] value [sz], which is not [SIZE_MAX]; the
    result points to a buffer of [sz + 1] characters; the character at
    index [sz] is NUL and every character before it has been written. *)
Theorem char_ptr_is_terminated {P : program} fuel id allow g p g' :
  make fuel (TPtr (TNum T_char)) id allow g = Ok p g' ->
  exists r buf sz cells,
    p = Some r /\
    heap g' !! S (length (heap g)) = Some (ONum T_size_t sz) /\
    0 <= sz < 2 ^ 64 - 1 /\
    heap g' !! r = Some (OPtr (TNum T_char) (Some buf)) /\
    heap g' !! buf = Some (OArr cells) /\
    Z.of_nat (length cells) = sz + 1 /\
    cells !! Z.to_nat sz = Some (Some 0) /\
    (forall j, (j < Z.to_nat sz)%nat -> exists c, cells !! j = Some (Some c)).
Proof.
  intros H.
  apply make_char_ptr_Ok in H
    as (r & buf & sz & cells & Hp & Hs & Hsz & Hr & Hb & Hl & Hz & Hc).
  by exists r, buf, sz, cells.
Qed.

(** X13.  The [void] overload in replay mode follows the log: from a
    record that holds the [int] value [n], [make<void>] creates a buffer
    of [n] characters, none of them written, and stores it in the pool of
    [void]; for a negative [n] the array [new] throws and nothing
    catches. *)
Theorem void_buffer_has_logged_size {P : program} fuel id allow n sid rest g :
  runmode g = replay ->
  ilog g = {| unread := record T_int n sid ++ rest; failed := false |} ->
  representable T_int n ->
  if n <? 0
  then make (S fuel) TVoid id allow g = Stop uncaught_exception
  else exists g',
    make (S fuel) TVoid id allow g = Ok (Some (length (heap g))) g' /\
    heap g' = heap g ++ [OArr (replicate (Z.to_nat n) None)] /\
    pool g' TVoid = pool g TVoid ++ [length (heap g)].
Proof.
  intros Hm Hi Hr.
  assert (make (S fuel) TVoid id allow g =
          (let* a := new_chars n in store TVoid a)
            (set_olog (olog g ++ record T_int n id)
               (set_ilog {| unread := rest; failed := false |}
                  (set_storage (<[TVoid := pool g TVoid]> (storage g)) g))))
    as ->.
  { simpl. unfold bind at 1. unfold oldies_of.
    rewrite andb_false_r. unfold makenew. unfold bind at 1.
    rewrite (between_replay_record T_int 1 4196 id n sid rest) by done.
    by rewrite decode_encode. }
  unfold new_chars. destruct (n <? 0); [done |].
  eexists. split; [reflexivity |]. simpl. split; [done |].
  unfold pool. simpl. by rewrite !lookup_insert_eq.
Qed.

(** ** More on the visibility predicate *)

Lemma visible_from_iff :
  (forall ctx, visible_from ctx = true <->
     forallb passes_own_tests (enclosing_classes ctx) = true /\
     within_anonymous ctx = false /\ within_other ctx = false) /\
  (forall C, visible_record C = true <->
     passes_own_tests C = true /\
     forallb passes_own_tests (record_enclosing_classes C) = true /\
     record_within_anonymous C = false /\ record_within_other C = false).
Proof.
  assert (H : forall ctx, visible_from ctx = true <->
     forallb passes_own_tests (enclosing_classes ctx) = true /\
     within_anonymous ctx = false /\ within_other ctx = false).
  { induction ctx using DeclContext_mut
      with (P0 := fun C => visible_record C = true <->
         passes_own_tests C = true /\
         forallb passes_own_tests (record_enclosing_classes C) = true /\
         record_within_anonymous C = false /\ record_within_other C = false).
    - done.
    - simpl. destruct isAnonymousNamespace; simpl; [| done].
      split; [done | by intros (_ & ? & _)].
    - simpl. rewrite IHctx, andb_true_iff. tauto.
    - simpl. split; [done | by intros (_ & _ & ?)].
    - cbn [visible_record record_enclosing_classes record_within_anonymous
             record_within_other].
      unfold passes_own_tests. cbn [identifier_of].
      destruct getIdentifier as [s|]; [| split; [done | by intros [? _]]].
      destruct (getAccess _); rewrite ?IHctx; try tauto;
        (split; [done | by intros [? _]]). }
  split; [exact H |].
  intros C. specialize (H (RecordContext C)). simpl in H.
  rewrite H, andb_true_iff. destruct C. simpl. tauto.
Qed.

(** X14.  [globally_visible] answers true exactly for a class that passes
    the two tests on the class itself (it has a name; its access, or its
    template's, is neither private nor protected), every class enclosing
    which passes them too, and none of whose enclosing scopes is an
    anonymous namespace or a scope other than a namespace or a class. *)
Theorem globally_visible_iff C :
  globally_visible (Some C) = true <->
  forallb passes_own_tests (C :: enclosing_classes (parent_of C)) = true /\
  within_anonymous (parent_of C) = false /\
  within_other (parent_of C) = false.
Proof.
  simpl. rewrite (proj2 visible_from_iff C), andb_true_iff.
  destruct C. simpl. tauto.
Qed.

(** X15.  Visibility is inherited outwards: every class that encloses a
    globally visible class is globally visible. *)
Theorem globally_visible_enclosing C outer :
  globally_visible (Some C) = true ->
  outer ∈ enclosing_classes (parent_of C) ->
  globally_visible (Some outer) = true.
Proof.
  assert (H : forall ctx, visible_from ctx = true ->
            outer ∈ enclosing_classes ctx -> visible_record outer = true).
  { induction ctx using DeclContext_mut
      with (P0 := fun C => visible_record C = true ->
              outer ∈ record_enclosing_classes C -> visible_record outer = true);
      simpl; intros Hc Hin.
    - by apply elem_of_nil in Hin.
    - destruct isAnonymousNamespace; [done | auto].
    - apply elem_of_cons in Hin as [-> | Hin]; auto.
    - done.
    - destruct getIdentifier; [| done].
      destruct getDescribedClassTemplate as [[]|]; try done; auto;
        destruct access; try done; auto. }
  intros Hv Hin. apply (H (RecordContext C) Hv).
  destruct C. simpl in *. by apply elem_of_cons; right.
Qed.

(** ** Names for template parameters *)

Section Names.
Import NameGetter.

(** What [get] answers once, it answers ever after. *)
Lemma get_settles decl ng s ng1 :
  get decl ng = (s, ng1) ->
  placeholders ng ⊆ placeholders ng1 /\
  forall ng2, placeholders ng1 ⊆ placeholders ng2 -> get decl ng2 = (s, ng2).
Proof.
  unfold get. destruct (getIdentifier decl) as [[|c id]|].
  - destruct (placeholders ng !! address decl) as [found|] eqn:E.
    + intros [= <- <-]. split; [done |]. intros ng2 Hsub.
      by rewrite (lookup_weaken _ _ _ _ E Hsub).
    + intros [= <- <-]. simpl. split; [by apply insert_subseteq |].
      intros ng2 Hsub.
      by rewrite (lookup_weaken _ _ _ _ (lookup_insert_eq _ _ _) Hsub).
  - intros [= <- <-]. by split.
  - destruct (placeholders ng !! address decl) as [found|] eqn:E.
    + intros [= <- <-]. split; [done |]. intros ng2 Hsub.
      by rewrite (lookup_weaken _ _ _ _ E Hsub).
    + intros [= <- <-]. simpl. split; [by apply insert_subseteq |].
      intros ng2 Hsub.
      by rewrite (lookup_weaken _ _ _ _ (lookup_insert_eq _ _ _) Hsub).
Qed.

Lemma parameters_loop_settles pars : forall i s ng r ng1,
  parameters_loop pars i s ng = (r, ng1) ->
  placeholders ng ⊆ placeholders ng1 /\
  forall ng2, placeholders ng1 ⊆ placeholders ng2 ->
    parameters_loop pars i s ng2 = (r, ng2).
Proof.
  induction pars as [|par rest IH]; intros i s ng r ng1 H; simpl in H.
  - injection H as <- <-. by split.
  - destruct (get (par_decl par) ng) as [name ng'] eqn:E.
    apply get_settles in E as [Hs1 Hg].
    apply IH in H as [Hs2 Hl]. split; [by etrans |].
    intros ng2 Hsub. simpl.
    rewrite (Hg ng2) by (by etrans). by apply Hl.
Qed.

Lemma print_names_with_types_settles params : forall idx os ng r ng1,
  print_names_with_types params idx os ng = (r, ng1) ->
  placeholders ng ⊆ placeholders ng1 /\
  forall ng2, placeholders ng1 ⊆ placeholders ng2 ->
    print_names_with_types params idx os ng2 = (r, ng2).
Proof.
  induction params as [|par rest IH]; intros idx os ng r ng1 H; simpl in H.
  - injection H as <- <-. by split.
  - destruct (get (par_decl par) ng) as [name ng'] eqn:E.
    apply get_settles in E as [Hs1 Hg].
    apply IH in H as [Hs2 Hl]. split; [by etrans |].
    intros ng2 Hsub. simpl.
    rewrite (Hg ng2) by (by etrans). by apply Hl.
Qed.

(** Both loops ask [get] for the same declarations in the same order. *)
Lemma loops_leave_same_getter pars : forall i s idx os ng,
  (parameters_loop pars i s ng).2 = (print_names_with_types pars idx os ng).2.
Proof.
  induction pars as [|par rest IH]; intros i s idx os ng; simpl; [done |].
  destruct (get (par_decl par) ng) as [name ng']. apply IH.
Qed.

Lemma get_sound decl ng : sound ng -> sound (get decl ng).2.
Proof.
  intros [Hn Hi]. unfold get.
  destruct (match getIdentifier decl with Some id => id | None => EmptyString end);
    [| done].
  destruct (placeholders ng !! address decl) as [found|] eqn:E; [done |].
  simpl. split; simpl.
  - intros a s. destruct (decide (address decl = a)) as [<-|Hne].
    + rewrite lookup_insert_eq. intros [= <-].
      exists (watermark ng). split; [lia | done].
    + rewrite lookup_insert_ne by done. intros Ha.
      destruct (Hn a s Ha) as (k & Hk & ->). exists k. split; [lia | done].
  - assert (Hnew : forall a s, placeholders ng !! a = Some s ->
              s <> placeholder_prefix ng +:+ to_string (watermark ng)).
    { intros a s Ha Hs. destruct (Hn a s Ha) as (k & Hk & ->).
      apply String.app_inj, (inj pretty) in Hs. lia. }
    intros a b s.
    destruct (decide (address decl = a)) as [<-|Ha],
             (decide (address decl = b)) as [<-|Hb]; [done | | |].
    + rewrite lookup_insert_eq, lookup_insert_ne by done.
      intros [= <-] Hb'. by destruct (Hnew _ _ Hb').
    + rewrite lookup_insert_eq, lookup_insert_ne by done.
      intros Ha' [= <-]. by destruct (Hnew _ _ Ha').
    + rewrite !lookup_insert_ne by done. apply Hi.
Qed.

Lemma get_nameless decl ng :
  nameless decl = true ->
  placeholders (get decl ng).2 !! address decl = Some (get decl ng).1.
Proof.
  unfold nameless, get. intros Hn.
  destruct (getIdentifier decl) as [[|c id]|]; [| done |];
    (destruct (placeholders ng !! address decl) as [found|] eqn:E;
     [done | simpl; by rewrite lookup_insert_eq]).
Qed.

End Names.

(** X16.  [NameGetter::get] answers the same for a declaration ever
    after: asked again for [decl], after it was asked for another
    declaration in between, it returns what it returned first and leaves
    the getter as it is. *)
Theorem get_answers_for_good decl other ng :
  let ng1 := (NameGetter.get decl ng).2 in
  let ng2 := (NameGetter.get other ng1).2 in
  NameGetter.get decl ng2 = ((NameGetter.get decl ng).1, ng2).
Proof.
  intros ng1 ng2. subst ng1 ng2.
  destruct (NameGetter.get decl ng) as [s ng1] eqn:E1. simpl.
  destruct (NameGetter.get other ng1) as [s' ng2] eqn:E2. simpl.
  apply get_settles in E1 as [_ H1]. apply get_settles in E2 as [H2 _].
  by apply H1.
Qed.

(** X17.  [NameGetter::get] keeps its table sound: when every placeholder
    handed out is the prefix followed by a number below [watermark] and no
    two declarations share a placeholder, the same holds after any
    sequence of calls; a getter without placeholders is sound. *)
Theorem get_keeps_placeholders_sound decls ng :
  NameGetter.sound ng \/ NameGetter.placeholders ng = ∅ ->
  NameGetter.sound (foldl (fun ng decl => (NameGetter.get decl ng).2) ng decls).
Proof.
  intros H.
  assert (Hs : NameGetter.sound ng).
  { destruct H as [H|H]; [done |]. split.
    - intros a s Ha. rewrite H in Ha. by apply lookup_empty_Some in Ha.
    - intros a b s Ha. rewrite H in Ha. by apply lookup_empty_Some in Ha. }
  clear H. revert ng Hs. induction decls as [|d ds IH]; intros ng Hs; [done |].
  simpl. by apply IH, get_sound.
Qed.

(** X18.  Two nameless declarations get different names: from a sound
    getter, the name [get] returns for one differs from the name it
    returns afterwards for the other. *)
Theorem nameless_declarations_get_distinct_names d1 d2 ng :
  NameGetter.sound ng ->
  NameGetter.nameless d1 = true -> NameGetter.nameless d2 = true ->
  NameGetter.address d1 <> NameGetter.address d2 ->
  (NameGetter.get d1 ng).1 <> (NameGetter.get d2 (NameGetter.get d1 ng).2).1.
Proof.
  intros Hs Hn1 Hn2 Hne Heq.
  pose proof (get_sound d2 _ (get_sound d1 ng Hs)) as [_ Hi].
  apply Hne, (Hi _ _ (NameGetter.get d1 ng).1).
  - eapply lookup_weaken; [by apply get_nameless |].
    apply (get_settles d2 (NameGetter.get d1 ng).2 _ _ (surjective_pairing _)).
  - rewrite Heq. by apply get_nameless.
Qed.

(** X19.  [parameters] can be asked again: called a second time for the
    same template with the getter the first call left, it returns the
    same text and leaves the getter as it is. *)
Theorem parameters_answers_for_good tmpl ng :
  parameters tmpl (parameters tmpl ng).2 = parameters tmpl ng.
Proof.
  unfold parameters. destruct tmpl as [pars|]; [| done].
  destruct (parameters_loop pars 0 "<" ng) as [s ng1] eqn:E. simpl.
  apply parameters_loop_settles in E as [_ H]. by rewrite H.
Qed.

(** X22.  [template_preamble] and [parameters] use the same names for a
    template: either leaves the getter in the same state, and from that
    state on both return the text they returned first and change the
    getter no more. *)
Theorem preamble_and_parameters_share_names tmpl ng :
  let ng1 := (template_preamble tmpl ng).2 in
  ng1 = (parameters tmpl ng).2 /\
  parameters tmpl ng1 = ((parameters tmpl ng).1, ng1) /\
  template_preamble tmpl ng1 = ((template_preamble tmpl ng).1, ng1).
Proof.
  intros ng1. subst ng1.
  assert (Hsame : (template_preamble tmpl ng).2 = (parameters tmpl ng).2).
  { unfold template_preamble, parameters. destruct tmpl as [pars|]; [| done].
    pose proof (loops_leave_same_getter pars 0 "<" 0 "template<" ng) as H.
    destruct (parameters_loop pars 0 "<" ng),
             (print_names_with_types pars 0 "template<" ng). by simpl in *. }
  split; [done |]. split.
  - rewrite Hsame. unfold parameters. destruct tmpl as [pars|]; [| done].
    destruct (parameters_loop pars 0 "<" ng) as [s ng1] eqn:E. simpl.
    apply parameters_loop_settles in E as [_ H]. by rewrite H.
  - unfold template_preamble. destruct tmpl as [pars|]; [| done].
    destruct (print_names_with_types pars 0 "template<" ng) as [s ng1] eqn:E.
    simpl. apply print_names_with_types_settles in E as [_ H]. by rewrite H.
Qed.

(** ** What a run depends on *)

Section Depends.
Context {P : program}.




















End Depends.


(** ** The built-in harnesses and the example programs are well formed *)

Lemma prog_ok_pbind {A B} (p : prog A) (f : A -> prog B) :
  prog_ok p -> (forall a, prog_ok (f a)) -> prog_ok (pbind p f).
Proof. intros Hp Hf. induction Hp; simpl; [apply Hf | by constructor ..]. Qed.

Lemma prog_ok_make_value T id : prog_ok (make_value T id).
Proof.
  unfold make_value. constructor. intros p. constructor.
  intros [| | |]; constructor.
Qed.

Lemma prog_ok_string_loop fuel : forall i s, prog_ok (string_loop fuel i s).
Proof.
  induction fuel as [|f IH]; intros i s; simpl; [constructor |].
  destruct (_ <? _); [| constructor].
  constructor; [repeat split; vm_compute; congruence |].
  intros c. destruct (i =? 0); [apply IH | constructor].
Qed.

Lemma prog_ok_vector_loop Tp n : prog_ok (vector_loop Tp n).
Proof.
  induction n as [|n IH]; cbn [vector_loop]; [constructor |].
  apply prog_ok_pbind; [apply prog_ok_make_value |]. intros v.
  apply prog_ok_pbind; [apply IH |]. intros vs. constructor.
Qed.

(** The harness table with the built-in specialisations is well formed
    when the user's harnesses are. *)
Lemma with_builtins_ok fuel user sl ttag ind :
  0 <= sl < 2 ^ 32 ->
  (forall c,
     prog_ok (ctor (user c)) /\
     (forall m obj, m ∈ mroulette (user c) -> prog_ok (m obj)) /\
     (forall f, f ∈ submakers (user c) -> prog_ok f)) ->
  program_ok {| typetag := ttag; spinlimit := sl;
                harness := with_builtins fuel user; indeterminate := ind |}.
Proof.
  intros Hs Hu. split; [done |]. intros c. simpl. unfold with_builtins.
  repeat case_decide; try apply Hu;
    cbn [harness_exception harness_string harness_istream harness_ostream
           harness_vector ctor mroulette submakers];
    (split; [| split; intros ? ?; try intros ?;
               match goal with H : _ ∈ [] |- _ => by apply elem_of_nil in H end]).
  - constructor.
  - apply prog_ok_pbind; [apply prog_ok_make_value |]. intros n.
    apply prog_ok_pbind; [apply prog_ok_string_loop |].
    intros [|x s]; constructor.
  - constructor. intros p. constructor. intros [| | |]; constructor.
  - constructor.
  - apply prog_ok_pbind; [apply prog_ok_make_value |]. intros n.
    apply prog_ok_vector_loop.
Qed.

Lemma demo_program2_ok : program_ok demo_program2.
Proof.
  apply with_builtins_ok; [done |]. intros c. unfold demo_classes.
  case_decide; simpl.
  - split; [constructor |]. split.
    + intros m obj ->%list_elem_of_singleton.
      constructor; [repeat split; vm_compute; congruence | constructor].
    + intros f ->%list_elem_of_singleton. constructor. constructor.
  - split; [constructor |].
    split; intros ? ?; try intros ?;
      match goal with H : _ ∈ [] |- _ => by apply elem_of_nil in H end.
Qed.

(** ** Concrete runs of the further properties *)

Lemma demo_run :
  @make demo_program2 3 (TClass "C") 1 true (gen_generate (counting 2))
  = Ok (Some 0%nat) demo_state.
Proof. vm_compute. reflexivity. Qed.

Lemma demo_replay_run :
  @make demo_program2 3 (TClass "C") 1 true demo_replay
  = Ok (Some 0%nat) demo_replay_state.
Proof. vm_compute. reflexivity. Qed.

Lemma int_ptr_run :
  @make demo_program 2 (TPtr (TNum T_int)) 5 false (gen_generate (counting 2))
  = Ok (Some 1%nat) int_ptr_state.
Proof. vm_compute. reflexivity. Qed.

Lemma vector_run :
  @make demo_program 3 (TClass "std::vector<int>") 1 false
    (gen_generate (counting 2))
  = Ok (Some 3%nat) vector_state.
Proof. vm_compute. reflexivity. Qed.

Lemma char_ptr_run :
  @make demo_program 2 (TPtr (TNum T_char)) 1 false (gen_generate (counting 2))
  = Ok (Some 0%nat) char_ptr_state.
Proof. vm_compute. reflexivity. Qed.

Lemma function_run :
  @make demo_program 1 TFunc 0 false (gen_generate (counting 2))
  = Ok None (state_of (@make demo_program 1 TFunc 0 false
                         (gen_generate (counting 2)))).
Proof. vm_compute. reflexivity. Qed.

Lemma make_replays_witness :
  program_ok demo_program2 /\
  @make demo_program2 3 (TClass "C") 1 true (gen_generate (counting 2))
    = Ok (Some 0%nat) demo_state /\
  exists w,
    olog demo_state = olog (gen_generate (counting 2)) ++ w /\
    forall gr rest,
      runmode gr = replay ->
      heap gr = heap (gen_generate (counting 2)) ->
      storage gr = storage (gen_generate (counting 2)) ->
      ilog gr = {| unread := w ++ rest; failed := false |} ->
      @make demo_program2 3 (TClass "C") 1 true gr
        = Ok (Some 0%nat) (replayed demo_state gr w rest).
Proof.
  exact (conj demo_program2_ok (conj demo_run
           (@make_replays demo_program2 3 (TClass "C") 1 true
              (gen_generate (counting 2)) (Some 0%nat) demo_state
              demo_program2_ok eq_refl demo_run))).
Defined.

Lemma make_writes_whole_records_witness :
  @make demo_program2 3 (TClass "C") 1 true demo_replay
    = Ok (Some 0%nat) demo_replay_state /\
  runmode demo_replay_state = runmode demo_replay /\
  exists recs,
    olog demo_replay_state = olog demo_replay ++ @records demo_program2 recs.
Proof.
  exact (conj demo_replay_run
           (@make_writes_whole_records demo_program2 3 (TClass "C") 1 true
              demo_replay (Some 0%nat) demo_replay_state demo_replay_run)).
Defined.

Lemma make_spares_other_source_witness :
  @make demo_program2 3 (TClass "C") 1 true demo_replay
    = Ok (Some 0%nat) demo_replay_state /\
  (runmode demo_replay = replay -> rgen demo_replay_state = rgen demo_replay) /\
  (runmode demo_replay = generate ->
   ilog demo_replay_state = ilog demo_replay).
Proof.
  exact (conj demo_replay_run
           (@make_spares_other_source demo_program2 3 (TClass "C") 1 true
              demo_replay (Some 0%nat) demo_replay_state demo_replay_run)).
Defined.

Lemma make_pools_grow_witness :
  @make demo_program2 3 (TClass "C") 1 true (gen_generate (counting 2))
    = Ok (Some 0%nat) demo_state /\
  forall t',
    pool (gen_generate (counting 2)) t' `prefix_of` pool demo_state t' /\
    (storable t' = false ->
     pool demo_state t' = pool (gen_generate (counting 2)) t').
Proof.
  exact (conj demo_run
           (@make_pools_grow demo_program2 3 (TClass "C") 1 true
              (gen_generate (counting 2)) (Some 0%nat) demo_state demo_run)).
Defined.

Lemma make_keeps_objects_witness :
  @make demo_program 2 (TPtr (TNum T_int)) 5 false (gen_generate (counting 2))
    = Ok (Some 1%nat) int_ptr_state /\
  (length (heap (gen_generate (counting 2))) <= length (heap int_ptr_state))%nat /\
  forall a, (a < length (heap (gen_generate (counting 2))))%nat ->
    heap int_ptr_state !! a = heap (gen_generate (counting 2)) !! a.
Proof.
  exact (conj int_ptr_run
           (@make_keeps_objects demo_program 2 (TPtr (TNum T_int)) 5 false
              (gen_generate (counting 2)) (Some 1%nat) int_ptr_state
              int_ptr_run)).
Defined.

Lemma make_returns_newest_witness :
  storable (TPtr (TNum T_int)) = true /\
  @make demo_program 2 (TPtr (TNum T_int)) 5 false (gen_generate (counting 2))
    = Ok (Some 1%nat) int_ptr_state /\
  exists a o,
    Some 1%nat = Some a /\
    (length (heap (gen_generate (counting 2))) <= a)%nat /\
    heap int_ptr_state !! a = Some o /\
    kind o = @stored_under demo_program (TPtr (TNum T_int)) /\
    last (pool int_ptr_state (@stored_under demo_program (TPtr (TNum T_int))))
      = Some a.
Proof.
  exact (conj eq_refl (conj int_ptr_run
           (@make_returns_newest demo_program 2 (TPtr (TNum T_int)) 5
              (gen_generate (counting 2)) (Some 1%nat) int_ptr_state
              eq_refl int_ptr_run))).
Defined.

Lemma make_null_only_for_functions_witness :
  @make demo_program 1 TFunc 0 false (gen_generate (counting 2))
    = Ok None (state_of (@make demo_program 1 TFunc 0 false
                           (gen_generate (counting 2)))) /\
  (@None nat = None <-> TFunc = TFunc).
Proof.
  exact (conj function_run
           (@make_null_only_for_functions demo_program 1 TFunc 0
              (gen_generate (counting 2)) None _ function_run)).
Defined.

Lemma replay_at_end_of_log_witness :
  runmode (gen_replay (counting 0) []) = replay /\
  (failed (ilog (gen_replay (counting 0) [])) = true \/
   unread (ilog (gen_replay (counting 0) [])) = []) /\
  @typetag demo_program T_int <> Byte.xff /\
  @between demo_program T_int 0 10 42 (gen_replay (counting 0) [])
    = Stop assertion_failed.
Proof.
  assert (H : @typetag demo_program T_int <> Byte.xff) by (vm_compute; congruence).
  exact (conj eq_refl (conj (or_intror eq_refl) (conj H
           (@replay_at_end_of_log demo_program T_int 0 10 42
              (gen_replay (counting 0) []) eq_refl (or_intror eq_refl) H)))).
Defined.

Lemma replay_of_a_truncated_value_witness :
  runmode truncated_replay = replay /\
  (length [Byte.x01] < sizeof T_int)%nat /\
  exists v g',
    @between demo_program T_int 0 10 42 truncated_replay = Ok v g' /\
    encode T_int v =
      [Byte.x01] ++
      drop (length [Byte.x01]) (encode T_int (@indeterminate demo_program T_int)) /\
    olog g' = olog truncated_replay ++ @record demo_program T_int v 42 /\
    ilog g' = {| unread := []; failed := true |}.
Proof.
  assert (H : (length [Byte.x01] < sizeof T_int)%nat) by (simpl; lia).
  exact (conj eq_refl (conj H
           (@replay_of_a_truncated_value demo_program T_int 0 10 42
              [Byte.x01] truncated_replay eq_refl eq_refl H))).
Defined.

Lemma replay_copies_bytes_witness :
  runmode short_id_replay = replay /\
  length [Byte.x01; Byte.x00; Byte.x00; Byte.x00] = sizeof T_int /\
  exists g',
    @between demo_program T_int 0 10 42 short_id_replay = Ok 1 g' /\
    olog g' = olog short_id_replay ++
              @typetag demo_program T_int ::
              [Byte.x01; Byte.x00; Byte.x00; Byte.x00] ++ encode T_size_t 42 /\
    ilog g' = {| unread := []; failed := true |}.
Proof.
  exact (conj eq_refl (conj eq_refl
           (@replay_copies_bytes demo_program T_int 0 10 42
              [Byte.x01; Byte.x00; Byte.x00; Byte.x00] [Byte.x2a; Byte.x00]
              short_id_replay eq_refl eq_refl eq_refl))).
Defined.

Lemma vector_harness_makes_each_element_witness :
  @harness demo_program "std::vector<int>"
    = harness_vector "std::vector<int>" T_int /\
  @make demo_program 3 (TClass "std::vector<int>") 1 false
    (gen_generate (counting 2)) = Ok (Some 3%nat) vector_state /\
  exists n data,
    length data = Z.to_nat n /\
    heap vector_state =
      heap (gen_generate (counting 2)) ++ ONum T_size_t n ::
        map (ONum T_int) data ++ [OClass "std::vector<int>" data []] /\
    Some 3%nat =
      Some (length (heap (gen_generate (counting 2))) + 1 + length data)%nat.
Proof.
  exact (conj eq_refl (conj vector_run
           (@vector_harness_makes_each_element demo_program 3
              "std::vector<int>" "std::vector<int>" T_int 1 false
              (gen_generate (counting 2)) (Some 3%nat) vector_state
              eq_refl vector_run))).
Defined.

Lemma D_has_no_submakers c :
  class_of (TPtr (TClass "D")) = Some c ->
  subcount (@harness demo_program2 c) = 0.
Proof. by intros [= <-]. Qed.

Lemma or_subclass_needs_submakers_witness :
  (forall c, class_of (TPtr (TClass "D")) = Some c ->
             subcount (@harness demo_program2 c) = 0) /\
  @make demo_program2 3 (TPtr (TClass "D")) 1 true demo_state
  = @make demo_program2 3 (TPtr (TClass "D")) 1 false demo_state.
Proof.
  exact (conj D_has_no_submakers
           (@or_subclass_needs_submakers demo_program2 3 (TPtr (TClass "D")) 1
              demo_state D_has_no_submakers)).
Defined.

Lemma char_ptr_is_terminated_witness :
  @make demo_program 2 (TPtr (TNum T_char)) 1 false (gen_generate (counting 2))
    = Ok (Some 0%nat) char_ptr_state /\
  exists r buf sz cells,
    Some 0%nat = Some r /\
    heap char_ptr_state !! S (length (heap (gen_generate (counting 2))))
      = Some (ONum T_size_t sz) /\
    0 <= sz < 2 ^ 64 - 1 /\
    heap char_ptr_state !! r = Some (OPtr (TNum T_char) (Some buf)) /\
    heap char_ptr_state !! buf = Some (OArr cells) /\
    Z.of_nat (length cells) = sz + 1 /\
    cells !! Z.to_nat sz = Some (Some 0) /\
    (forall j, (j < Z.to_nat sz)%nat -> exists c, cells !! j = Some (Some c)).
Proof.
  exact (conj char_ptr_run
           (@char_ptr_is_terminated demo_program 2 1 false
              (gen_generate (counting 2)) (Some 0%nat) char_ptr_state
              char_ptr_run)).
Defined.

Lemma void_buffer_has_logged_size_witness :
  runmode void_replay = replay /\
  representable T_int 5 /\
  exists g',
    @make demo_program 1 TVoid 9 false void_replay
      = Ok (Some (length (heap void_replay))) g' /\
    heap g' = heap void_replay ++ [OArr (replicate (Z.to_nat 5) None)] /\
    pool g' TVoid = pool void_replay TVoid ++ [length (heap void_replay)].
Proof.
  assert (H : representable T_int 5) by (split; vm_compute; congruence).
  exact (conj eq_refl (conj H
           (@void_buffer_has_logged_size demo_program 0 9 false 5 9 []
              void_replay eq_refl eq_refl H))).
Defined.

Lemma globally_visible_enclosing_witness :
  globally_visible (Some visible_inner) = true /\
  visible_class ∈ enclosing_classes (parent_of visible_inner) /\
  globally_visible (Some visible_class) = true.
Proof.
  assert (H : visible_class ∈ enclosing_classes (parent_of visible_inner))
    by apply list_elem_of_here.
  exact (conj eq_refl (conj H
           (globally_visible_enclosing visible_inner visible_class eq_refl H))).
Defined.

Lemma fresh_getter_sound : NameGetter.sound fresh_getter.
Proof.
  split.
  - intros a s H. cbn [fresh_getter NameGetter.placeholders] in H.
    by apply lookup_empty_Some in H.
  - intros a b s H. cbn [fresh_getter NameGetter.placeholders] in H.
    by apply lookup_empty_Some in H.
Qed.

Lemma get_keeps_placeholders_sound_witness :
  (NameGetter.sound fresh_getter \/
   NameGetter.placeholders fresh_getter = ∅) /\
  NameGetter.sound
    (foldl (fun ng decl => (NameGetter.get decl ng).2) fresh_getter
       [unnamed 1; named 2 "T"; unnamed 3]).
Proof.
  exact (conj (or_intror eq_refl)
           (get_keeps_placeholders_sound [unnamed 1; named 2 "T"; unnamed 3]
              fresh_getter (or_intror eq_refl))).
Defined.

Lemma nameless_declarations_get_distinct_names_witness :
  NameGetter.sound fresh_getter /\
  NameGetter.address (unnamed 1) <> NameGetter.address (unnamed 2) /\
  (NameGetter.get (unnamed 1) fresh_getter).1 = "ramfuzz_placeholder0" /\
  (NameGetter.get (unnamed 1) fresh_getter).1 <>
  (NameGetter.get (unnamed 2) (NameGetter.get (unnamed 1) fresh_getter).2).1.
Proof.
  assert (H : NameGetter.address (unnamed 1) <> NameGetter.address (unnamed 2))
    by (simpl; lia).
  exact (conj fresh_getter_sound (conj H (conj eq_refl
           (nameless_declarations_get_distinct_names (unnamed 1) (unnamed 2)
              fresh_getter fresh_getter_sound eq_refl eq_refl H)))).
Defined.

